(** * juju/schema: the coercion protocol, its combinators and the field-map validator

    A shallow embedding of the [Checker] contract, of the combinators
    [Any], [OneOf], [Const] and [Empty], and of fieldmap.go and util.go.
    A Go [Checker] is an interface with the single method [Coerce]; it is
    embedded as that method.  Dynamically typed values ([interface{}]) are
    embedded as a tagged union, the three results a call can have (a value,
    an [error], a run-time panic) as a small error monad, and Go's
    unspecified map iteration order as a parameter of the run time. *)

From stdpp Require Import gmap strings list fin_maps countable pretty.

Local Open Scope string_scope.

(** ** Dynamically typed values *)

(** The dynamic value of a key of a [map[interface{}]T]: the comparable
    scalars, and the nil interface. *)
Inductive key :=
  | KNil
  | KBool (b : bool)
  | KInt (z : Z)
  | KStr (s : string).

#[global] Instance key_eq_dec : EqDecision key.
Proof. solve_decision. Defined.

#[global] Instance key_countable : Countable key.
Proof.
  refine (inj_countable'
    (λ k, match k with
          | KNil => inl ()
          | KBool b => inr (inl b)
          | KInt z => inr (inr (inl z))
          | KStr s => inr (inr (inr s))
          end)
    (λ x, match x with
          | inl _ => KNil
          | inr (inl b) => KBool b
          | inr (inr (inl z)) => KInt z
          | inr (inr (inr s)) => KStr s
          end) _).
  by intros [].
Defined.

(** The fragment of [interface{}] the validator can tell apart: nil, three
    scalars, the [Omit] marker (the only value of type [omit]), and maps of
    the three kinds of key type that [hasStrictStringKeys] distinguishes:
    [map[string]interface{}], [map[interface{}]interface{}] and a map whose
    key type is neither ([map[int]interface{}]). *)
#[warnings="-register-all"]
Inductive value :=
  | VNil
  | VBool (b : bool)
  | VInt (z : Z)
  | VStr (s : string)
  | VOmit
  | VMapS (m : gmap string value)
  | VMapI (m : gmap key value)
  | VMapZ (m : gmap Z value).

#[global] Instance value_inhabited : Inhabited value := populate VNil.

#[global] Instance value_eq_dec : EqDecision value.
Proof.
  refine (fix go (v1 v2 : value) : Decision (v1 = v2) :=
    match v1, v2 with
    | VNil, VNil => left _
    | VBool b1, VBool b2 => cast_if (decide (b1 = b2))
    | VInt z1, VInt z2 => cast_if (decide (z1 = z2))
    | VStr s1, VStr s2 => cast_if (decide (s1 = s2))
    | VOmit, VOmit => left _
    | VMapS m1, VMapS m2 =>
        cast_if (@decide (m1 = m2) (@gmap_eq_dec _ _ _ _ go m1 m2))
    | VMapI m1, VMapI m2 =>
        cast_if (@decide (m1 = m2) (@gmap_eq_dec _ _ _ _ go m1 m2))
    | VMapZ m1, VMapZ m2 =>
        cast_if (@decide (m1 = m2) (@gmap_eq_dec _ _ _ _ go m1 m2))
    | _, _ => right _
    end); clear go; abstract congruence.
Defined.

(** [reflect.DeepEqual]: on this fragment (no floats, functions or
    pointers, dynamic types carried by the constructors) it is structural
    equality. *)
Definition DeepEqual (x y : value) : bool := bool_decide (x = y).

(** [dflt == Omit]: an interface compared with the value of type [omit]. *)
Definition isOmit (v : value) : bool :=
  match v with VOmit => true | _ => false end.

(** ** Errors and results *)

Inductive fmt_arg :=
  | ArgStr (s : string)
  | ArgVal (v : value).

(** The two kinds of [error] the package returns: the struct [error_]
    (want, got, path) and the result of a [fmt.Errorf] call, kept as its
    format string and its arguments. *)
Inductive error :=
  | error_ (want : string) (got : value) (path : list string)
  | Errorf (format : string) (args : list fmt_arg).

(** What a call does: return a value with a nil error, return an error,
    or panic. *)
Inductive Result (A : Type) :=
  | Ok (a : A)
  | Err (e : error)
  | Panic (msg : string).
Arguments Ok {A} a.
Arguments Err {A} e.
Arguments Panic {A} msg.

#[global] Instance Result_ret : MRet Result := λ A a, Ok a.
#[global] Instance Result_bind : MBind Result := λ A B f r,
  match r with
  | Ok a => f a
  | Err e => Err e
  | Panic msg => Panic msg
  end.

Definition isOk {A} (r : Result A) : bool :=
  match r with Ok _ => true | _ => false end.
Definition isErr {A} (r : Result A) : bool :=
  match r with Err _ => true | _ => false end.

(** ** The run time *)

(** What the Go run time and the parts of the package outside these files
    decide: the order in which a [range] over a map (and [MapKeys]) visits
    the keys, which is some permutation of them; [pathAsPrefix], which the
    strict check calls and these files do not define; and the rendering
    [fmt.Sprintf("%#v", x)].  The properties below hold for every run
    time. *)
Class GoRuntime := {
  range_order : ∀ A : Type, list A → list A;
  range_order_perm : ∀ (A : Type) (l : list A), range_order A l ≡ₚ l;
  pathAsPrefix : list string → string;
  Sprintf_v : value → string;
}.
Arguments range_order {_ A} l.

(** [for k, x := range m]: the entries of [m], in the order of this run. *)
Definition rangeMap `{GoRuntime} `{Countable K} {A} (m : gmap K A) : list (K * A) :=
  range_order (map_to_list m).

(** ** Path formatting (util.go) *)

(** [strings.Join(elems, sep)] *)
Fixpoint Join (elems : list string) (sep : string) : string :=
  match elems with
  | [] => EmptyString
  | [e] => e
  | e :: rest => e ++ sep ++ Join rest sep
  end.

Definition pathAsString (path : list string) : string :=
  match path with
  | [] => EmptyString
  | p0 :: rest =>
      if decide (p0 = ".") then Join rest EmptyString
      else Join path EmptyString
  end.

(** ** reflect on maps *)

(** [rv.Kind() == reflect.Map] *)
Definition isMap (v : value) : bool :=
  match v with VMapS _ | VMapI _ | VMapZ _ => true | _ => false end.

(** A [reflect.Value] that [MapKeys] returns: it has the map's key type, so
    its kind is String, Interface (wrapping the dynamic key) or Int. *)
Inductive keyValue :=
  | StringValue (s : string)
  | InterfaceValue (k : key)
  | IntValue (z : Z).

(** [rv.MapKeys()] *)
Definition MapKeys `{GoRuntime} (rv : value) : list keyValue :=
  match rv with
  | VMapS m => StringValue <$> (rangeMap m).*1
  | VMapI m => InterfaceValue <$> (rangeMap m).*1
  | VMapZ m => IntValue <$> (rangeMap m).*1
  | _ => []
  end.

(** [k.String()]: the string itself for a value of kind String, and
    ["<T Value>"] for a value of any other type [T] (it does not panic, and
    it does not look inside an interface). *)
Definition String_ (k : keyValue) : string :=
  match k with
  | StringValue s => s
  | InterfaceValue _ => "<interface {} Value>"
  | IntValue _ => "<int Value>"
  end.

(** [rv.MapIndex(k).Interface()] for a key [k] of [rv]'s own key type. *)
Definition MapIndexKey (rv : value) (k : keyValue) : Result value :=
  let found (o : option value) :=
    match o with
    | Some x => Ok x
    | None => Panic "reflect: call of reflect.Value.Interface on zero Value"
    end in
  match rv, k with
  | VMapS m, StringValue s => found (m !! s)
  | VMapI m, InterfaceValue k => found (m !! k)
  | VMapZ m, IntValue z => found (m !! z)
  | _, _ => Panic "reflect.Value.MapIndex: value is not assignable to the key type"
  end.

(** [rv.MapIndex(reflect.ValueOf(name))] with [name] a string: [None] is the
    zero Value ([IsValid()] false).  A string is assignable to the key types
    string and interface{}, and to no other: there MapIndex panics. *)
Definition MapIndex (rv : value) (name : string) : Result (option value) :=
  match rv with
  | VMapS m => Ok (m !! name)
  | VMapI m => Ok (m !! KStr name)
  | VMapZ _ =>
      Panic "reflect.Value.MapIndex: value of type string is not assignable to type int"
  | _ => Panic "reflect: call of reflect.Value.MapIndex on non-map Value"
  end.

(** ** The Checker contract and the leaf combinators *)

(** [Checker]: the interface, as its method [Coerce(v, path)]. *)
Abbreviation Checker := (value → list string → Result value) (only parsing).

Definition anyC_Coerce : Checker := λ v path, Ok v.
Definition Any : Checker := anyC_Coerce.

Definition constC_Coerce `{GoRuntime} (value : value) : Checker := λ v path,
  if DeepEqual v value then Ok v
  else Err (error_ (Sprintf_v value) v path).
Definition Const `{GoRuntime} (value : value) : Checker := constC_Coerce value.

Definition emptyC_Coerce (valueLabel : string) : Checker := λ v path,
  if DeepEqual v VNil then Ok v
  else
    let label := "empty " ++ valueLabel in
    Err (error_ label v path).
Definition Empty (valueLabel : string) : Checker :=
  let valueLabel :=
    if decide (valueLabel = EmptyString) then "value" else valueLabel in
  emptyC_Coerce valueLabel.

Fixpoint oneOfC_Coerce (options : list Checker) : Checker := λ v path,
  match options with
  | [] => Err (error_ EmptyString v path)
  | o :: rest =>
      match o v path with
      | Ok newv => Ok newv
      | Err _ => oneOfC_Coerce rest v path
      | Panic msg => Panic msg
      end
  end.
Definition OneOf (options : list Checker) : Checker := oneOfC_Coerce options.

(** ** The field-map validator (fieldmap.go) *)

Record Dependency := {
  DependsOn : string;
  Value : value;
}.

Record Schema := {
  Checkers : gmap string Checker;
  Defaults : gmap string value;
  Dependencies : gmap string Dependency;
  Strict : bool;
}.

Definition FieldMap (checkers : gmap string Checker)
    (defaults : gmap string value) : Schema :=
  {| Checkers := checkers; Defaults := defaults;
     Dependencies := ∅; Strict := false |}.

Definition StrictFieldMap (checkers : gmap string Checker)
    (defaults : gmap string value) : Schema :=
  {| Checkers := checkers; Defaults := defaults;
     Dependencies := ∅; Strict := true |}.

(** [rv.Type().Key()], as far as [hasStrictStringKeys] looks at it. *)
Inductive keyType := stringType | interfaceType | intType.

#[global] Instance keyType_eq_dec : EqDecision keyType.
Proof. solve_decision. Defined.

Definition Type_Key (rv : value) : Result keyType :=
  match rv with
  | VMapS _ => Ok stringType
  | VMapI _ => Ok interfaceType
  | VMapZ _ => Ok intType
  | _ => Panic "reflect: Key of non-map type"
  end.

(** [k.Elem().Type() != stringType]: [Elem] of a nil interface is the zero
    Value, and [Type] of the zero Value panics. *)
Definition Elem_Type_isString (k : keyValue) : Result bool :=
  match k with
  | InterfaceValue KNil =>
      Panic "reflect: call of reflect.Value.Type on zero Value"
  | InterfaceValue (KStr _) => Ok true
  | InterfaceValue _ => Ok false
  | _ => Panic "reflect: call of reflect.Value.Elem on a value that is no interface"
  end.

(** The loop of [hasStrictStringKeys] over [rv.MapKeys()]. *)
Fixpoint allStringKeys (keys : list keyValue) : Result bool :=
  match keys with
  | [] => Ok true
  | k :: keys' =>
      isString ← Elem_Type_isString k;
      if negb isString then Ok false else allStringKeys keys'
  end.

Definition hasStrictStringKeys `{GoRuntime} (rv : value) : Result bool :=
  kt ← Type_Key rv;
  if bool_decide (kt = stringType) then Ok true
  else if negb (bool_decide (kt = interfaceType)) then Ok false
  else allStringKeys (MapKeys rv).

(** [vpath[len(vpath)-1] = name] *)
Definition setLast (vpath : list string) (name : string) : list string :=
  <[length vpath - 1 := name]> vpath.

(** The switch of the dependency loop: [None] is [continue], also when no
    case applies. *)
Definition dependencyCheck (out : gmap string value) (name : string)
    (dep : Dependency) : option error :=
  let actual := default VNil (out !! DependsOn dep) in
  let depExists := bool_decide (is_Some (out !! DependsOn dep)) in
  let fieldExists := bool_decide (is_Some (out !! name)) in
  let equal := DeepEqual actual (Value dep) in
  if negb fieldExists && negb depExists then None
  else if fieldExists && depExists && equal then None
  else if fieldExists && depExists && negb equal then
    Some (Errorf
      "field %q should not be specified when %q is %v. %q requires %q to have value %v"
      [ArgStr name; ArgStr (DependsOn dep); ArgVal actual; ArgStr name;
       ArgStr (DependsOn dep); ArgVal (Value dep)])
  else if fieldExists && negb depExists then
    Some (Errorf
      "field %q requires value %v be specified for %q, but it is not specified"
      [ArgStr name; ArgVal (Value dep); ArgStr (DependsOn dep)])
  else if negb fieldExists && depExists && equal then
    Some (Errorf
      "field %q exists with value %v, but required field %q is missing"
      [ArgStr (DependsOn dep); ArgVal actual; ArgStr name])
  else None.

Fixpoint dependenciesLoop (l : list (string * Dependency))
    (out : gmap string value) : Result () :=
  match l with
  | [] => Ok ()
  | (name, dep) :: l' =>
      match dependencyCheck out name dep with
      | Some e => Err e
      | None => dependenciesLoop l' out
      end
  end.

Section Schema_Coerce.
Context `{GoRuntime} (s : Schema) (v : value) (path : list string).

(** The loop of the strict check over [rv.MapKeys()]. *)
Fixpoint strictLoop (keys : list keyValue) : Result () :=
  match keys with
  | [] => Ok ()
  | k :: keys' =>
      let name := String_ k in
      match Checkers s !! name with
      | None =>
          x ← MapIndexKey v k;
          Err (Errorf "%sunknown key %q (value %#v)"
                 [ArgStr (pathAsPrefix path); ArgStr name; ArgVal x])
      | Some _ => strictLoop keys'
      end
  end.

(** [vpath := append(path, ".", "?")] *)
Definition vpath : list string := path ++ ["."; "?"].

(** The switch of the per-field loop: the value handed to the field's
    checker, or [None] for [continue].  When no case applies [value]
    keeps its zero value, nil. *)
Definition fieldValue (valuev : option value) (name : string) : option value :=
  match valuev, Defaults s !! name, Dependencies s !! name with
  | Some x, _, _ => Some x
  | None, Some dflt, _ => if isOmit dflt then None else Some dflt
  | None, None, Some _ => None
  | None, None, None => Some VNil
  end.

Fixpoint fieldsLoop (l : list (string * Checker))
    (out : gmap string value) : Result (gmap string value) :=
  match l with
  | [] => Ok out
  | (name, checker) :: l' =>
      valuev ← MapIndex v name;
      match fieldValue valuev name with
      | None => fieldsLoop l' out
      | Some value =>
          newv ← checker value (setLast vpath name);
          fieldsLoop l' (<[name := newv]> out)
      end
  end.

(** The loop over [s.Defaults]; the checker is called on the whole
    input [v]. *)
Fixpoint defaultsLoop (l : list (string * value))
    (out : gmap string value) : Result (gmap string value) :=
  match l with
  | [] => Ok out
  | (name, val) :: l' =>
      if isOmit val then defaultsLoop l' out
      else
        match out !! name with
        | Some _ => defaultsLoop l' out
        | None =>
            match Checkers s !! name with
            | None =>
                Err (Errorf "got default value for unknown field %q"
                       [ArgStr name])
            | Some checker =>
                newv ← checker v (setLast vpath name);
                defaultsLoop l' (<[name := newv]> out)
            end
        end
  end.

(** Everything up to the dependency loop: shape check, strict check,
    per-field coercion and the pass over the defaults. *)
Definition coerceFields : Result (gmap string value) :=
  if negb (isMap v) then Err (error_ "map" v path)
  else
    strings ← hasStrictStringKeys v;
    if negb strings then Err (error_ "map[string]" v path)
    else
      (if Strict s then strictLoop (MapKeys v) else Ok ());;
      out ← fieldsLoop (rangeMap (Checkers s)) ∅;
      defaultsLoop (rangeMap (Defaults s)) out.

Definition Schema_Coerce : Result value :=
  out ← coerceFields;
  dependenciesLoop (rangeMap (Dependencies s)) out;;
  Ok (VMapS out).

(** The pass over the defaults of the variant that never coerces: it only
    raises the error for a defaulted field that has no checker. *)
Fixpoint defaultsLoop_unknownOnly (l : list (string * value))
    (out : gmap string value) : Result (gmap string value) :=
  match l with
  | [] => Ok out
  | (name, val) :: l' =>
      if isOmit val then defaultsLoop_unknownOnly l' out
      else
        match out !! name with
        | Some _ => defaultsLoop_unknownOnly l' out
        | None =>
            match Checkers s !! name with
            | None =>
                Err (Errorf "got default value for unknown field %q"
                       [ArgStr name])
            | Some _ => defaultsLoop_unknownOnly l' out
            end
        end
  end.

Definition Schema_Coerce_unknownOnly : Result value :=
  if negb (isMap v) then Err (error_ "map" v path)
  else
    strings ← hasStrictStringKeys v;
    if negb strings then Err (error_ "map[string]" v path)
    else
      (if Strict s then strictLoop (MapKeys v) else Ok ());;
      out ← fieldsLoop (rangeMap (Checkers s)) ∅;
      out ← defaultsLoop_unknownOnly (rangeMap (Defaults s)) out;
      dependenciesLoop (rangeMap (Dependencies s)) out;;
      Ok (VMapS out).
End Schema_Coerce.

(** ** The map-set dispatcher *)

Record mapSetC := {
  selector : string;
  fmaps : list Schema;
}.

(** [FieldMapSet]: the argument is typed as the Schemas the type assertion
    [m.(Schema)] lets through; a Schema without a checker for the selector
    makes the constructor panic. *)
Definition FieldMapSet (selector : string) (maps : list Schema) : Result mapSetC :=
  if forallb (λ fmap, bool_decide (is_Some (Checkers fmap !! selector))) maps
  then Ok {| selector := selector; fmaps := maps |}
  else Panic "FieldMapSet has a FieldMap with a missing selector".

Section mapSetC_Coerce.
Context `{GoRuntime} (c : mapSetC) (v : value) (path : list string).

(** The loop over [c.fmaps], entered when the selector key is there. *)
Fixpoint selectLoop (selectorValue : value) (l : list Schema) : Result value :=
  match l with
  | [] =>
      Err (error_ "supported selector" selectorValue
             (path ++ ["."; selector c]))
  | fmap :: l' =>
      match Checkers fmap !! selector c with
      | None =>
          Panic "runtime error: invalid memory address or nil pointer dereference"
      | Some checker =>
          match checker selectorValue path with
          | Ok _ => Schema_Coerce fmap v path
          | Err _ => selectLoop selectorValue l'
          | Panic msg => Panic msg
          end
      end
  end.

Definition mapSetC_Coerce : Result value :=
  if negb (isMap v) then Err (error_ "map" v path)
  else
    selectorv ← MapIndex v (selector c);
    match selectorv with
    | Some selectorValue => selectLoop selectorValue (fmaps c)
    | None =>
        Err (error_ "supported selector" VNil (path ++ ["."; selector c]))
    end.
End mapSetC_Coerce.

(** ** Checker trees *)

(** The checkers built from [Any], [Const], [Empty], [OneOf], [FieldMap],
    [StrictFieldMap] and [FieldMapSet]. *)
Inductive coreChecker `{GoRuntime} : Checker → Prop :=
  | core_Any : coreChecker Any
  | core_Const x : coreChecker (Const x)
  | core_Empty valueLabel : coreChecker (Empty valueLabel)
  | core_OneOf options :
      (∀ o, o ∈ options → coreChecker o) →
      coreChecker (OneOf options)
  | core_FieldMap checkers defaults :
      (∀ name c, checkers !! name = Some c → coreChecker c) →
      coreChecker (Schema_Coerce (FieldMap checkers defaults))
  | core_StrictFieldMap checkers defaults :
      (∀ name c, checkers !! name = Some c → coreChecker c) →
      coreChecker (Schema_Coerce (StrictFieldMap checkers defaults))
  | core_FieldMapSet selector maps c :
      FieldMapSet selector maps = Ok c →
      (∀ fmap, fmap ∈ maps → Dependencies fmap = ∅) →
      (∀ fmap name o, fmap ∈ maps →
         Checkers fmap !! name = Some o → coreChecker o) →
      coreChecker (mapSetC_Coerce c).

(** The trees without alternation: no [OneOf], no [FieldMapSet]. *)
Inductive plainChecker `{GoRuntime} : Checker → Prop :=
  | plain_Any : plainChecker Any
  | plain_Const x : plainChecker (Const x)
  | plain_Empty valueLabel : plainChecker (Empty valueLabel)
  | plain_FieldMap checkers defaults :
      (∀ name c, checkers !! name = Some c → plainChecker c) →
      plainChecker (Schema_Coerce (FieldMap checkers defaults))
  | plain_StrictFieldMap checkers defaults :
      (∀ name c, checkers !! name = Some c → plainChecker c) →
      plainChecker (Schema_Coerce (StrictFieldMap checkers defaults)).

(** A checker whose output, coerced again at any path, is the output. *)
Definition idempotent (c : Checker) : Prop :=
  ∀ v path w, c v path = Ok w → ∀ path', c w path' = Ok w.

(** ** The dependency rule in the words of the specification *)

(** The table of the specification, by whether the dependent field is
    present, whether the depended-on field is present, and whether its
    value equals the required one: [true] is OK, [false] is an error. *)
Definition dependencyRule (dependentPresent dependedOnPresent valuesEqual : bool) : bool :=
  match dependentPresent, dependedOnPresent, valuesEqual with
  | false, false, _ => true
  | true, true, true => true
  | true, true, false => false
  | true, false, _ => false
  | false, true, true => false
  | false, true, false => true
  end.

(** ** A run time to evaluate with *)

Definition refSprintf_v (v : value) : string :=
  match v with
  | VNil => "interface {}(nil)"
  | VBool true => "true"
  | VBool false => "false"
  | VInt z => pretty z
  | VStr s =>
      let quote := Ascii.ascii_of_nat 34 in
      String quote (s ++ String quote EmptyString)
  | VOmit => "schema.omit{}"
  | VMapS _ => "map[string]interface {}{...}"
  | VMapI _ => "map[interface {}]interface {}{...}"
  | VMapZ _ => "map[int]interface {}{...}"
  end.

(** Maps are ranged over in the order of [map_to_list]; the prefix of a
    path is [pathAsString] followed by a colon; values are rendered with
    maps abridged. *)
Definition refRuntime : GoRuntime := {|
  range_order := λ A l, l;
  range_order_perm := λ A l, reflexivity l;
  pathAsPrefix := λ path,
    let s := pathAsString path in
    if decide (s = EmptyString) then EmptyString else s ++ ": ";
  Sprintf_v := refSprintf_v;
|}.

(** The same, ranging in the opposite order. *)
Definition revRuntime : GoRuntime := {|
  range_order := λ A l, reverse l;
  range_order_perm := λ A l, reverse_Permutation l;
  pathAsPrefix := @pathAsPrefix refRuntime;
  Sprintf_v := refSprintf_v;
|}.

(** ** Schemas of the examples *)

(** [{"b": {DependsOn: "a", Value: true}}] over two unconstrained fields. *)
Definition dependencySchema : Schema := {|
  Checkers := {[ "a" := Any; "b" := Any ]};
  Defaults := ∅;
  Dependencies := {[ "b" := {| DependsOn := "a"; Value := VBool true |} ]};
  Strict := false;
|}.

(** A schema whose defaults name a field without a checker. *)
Definition unknownDefaultSchema : Schema := FieldMap ∅ {[ "x" := VInt 1 ]}.

(** Two alternatives: a strict map that defaults ["c"], and a lax map. *)
Definition strictAlternative : Schema :=
  StrictFieldMap {[ "a" := Any; "c" := Any ]} {[ "c" := VInt 5 ]}.
Definition laxAlternative : Schema :=
  FieldMap {[ "a" := Any ]} ∅.

(** ** The stages of [Schema.Coerce], read declaratively *)

(** The entry of a map under a string key, for the maps a string can
    index. *)
Definition stringLookup (v : value) (name : string) : option value :=
  match v with
  | VMapS m => m !! name
  | VMapI m => m !! KStr name
  | _ => None
  end.

Definition isKStr (k : key) : bool :=
  match k with KStr _ => true | _ => false end.

(** A map whose keys are all strings: by its key type, or one by one. *)
Definition stringKeyed (v : value) : bool :=
  match v with
  | VMapS _ => true
  | VMapI m => forallb isKStr (map_to_list m).*1
  | _ => false
  end.

(** What the per-field loop leaves in the output under [name]: nothing for
    a name without a checker or a field the switch skips, and otherwise the
    result of the field's checker, which has to succeed. *)
Definition fieldOutput (s : Schema) (v : value) (path : list string)
    (name : string) (o : option value) : Prop :=
  match Checkers s !! name with
  | None => o = None
  | Some checker =>
      match fieldValue s (stringLookup v name) name with
      | None => o = None
      | Some x =>
          ∃ newv,
            checker x (path ++ ["."; name])%list = Ok newv ∧ o = Some newv
      end
  end.

(** The input passes the strict check. *)
Definition strictOk `{GoRuntime} (s : Schema) (v : value) : Prop :=
  Strict s = true →
  ∀ k, k ∈ MapKeys v → is_Some (Checkers s !! String_ k).

(** No default other than [Omit] names a field without a checker. *)
Definition defaultsKnown (s : Schema) : Prop :=
  ∀ name d, Defaults s !! name = Some d → isOmit d = false →
            is_Some (Checkers s !! name).

(** [FieldMapSet("kind", ...)] over two variants, selected by the constants
    ["x"] and ["y"]. *)
Definition kindSet `{GoRuntime} : Result mapSetC :=
  FieldMapSet "kind"
    [FieldMap {[ "kind" := Const (VStr "x") ]} ∅;
     FieldMap {[ "kind" := Const (VStr "y"); "size" := Any ]} ∅].

(** A dispatcher whose second variant rewrites the selector's value into
    one that the first variant accepts. *)
Definition nestedDefault : Schema :=
  FieldMap {[ "d" := Any ]} {[ "d" := VInt 5 ]}.
Definition constVariant `{GoRuntime} : Schema :=
  FieldMap {[ "kind" := Const (VMapS {[ "d" := VInt 5 ]}); "extra" := Any ]}
    {[ "extra" := VInt 1 ]}.
Definition nestedVariant `{GoRuntime} : Schema :=
  FieldMap {[ "kind" := Schema_Coerce nestedDefault ]} ∅.
Definition driftingSet `{GoRuntime} : mapSetC :=
  {| selector := "kind"; fmaps := [constVariant; nestedVariant] |}.

(** * Properties *)

(** ** Ranging over a map *)

Section rangeMap_facts.
Context `{GoRuntime} `{Countable K} {A : Type}.
Implicit Types m : gmap K A.

Lemma elem_of_rangeMap m k x : (k, x) ∈ rangeMap m ↔ m !! k = Some x.
Proof.
  unfold rangeMap. rewrite range_order_perm. apply elem_of_map_to_list.
Qed.

Lemma NoDup_fst_rangeMap m : NoDup (rangeMap m).*1.
Proof.
  unfold rangeMap. rewrite range_order_perm. apply NoDup_fst_map_to_list.
Qed.

Lemma elem_of_fst_rangeMap m k : k ∈ (rangeMap m).*1 ↔ is_Some (m !! k).
Proof.
  rewrite list_elem_of_fmap. split.
  - intros [[k' x] [-> Hin]]. apply elem_of_rangeMap in Hin. by exists x.
  - intros [x Hx]. exists (k, x). split; [done|]. by apply elem_of_rangeMap.
Qed.

Lemma rangeMap_empty : rangeMap (∅ : gmap K A) = [].
Proof.
  unfold rangeMap. apply Permutation_nil_r.
  by rewrite range_order_perm, map_to_list_empty.
Qed.

Lemma rangeMap_singleton k x : rangeMap ({[ k := x ]} : gmap K A) = [(k, x)].
Proof.
  unfold rangeMap. apply Permutation_singleton_r.
  by rewrite range_order_perm, map_to_list_singleton.
Qed.
End rangeMap_facts.

(** ** OneOf *)

Lemma oneOfC_Coerce_Err o rest v path e :
  o v path = Err e → oneOfC_Coerce (o :: rest) v path = oneOfC_Coerce rest v path.
Proof. intros Ho. simpl. by rewrite Ho. Qed.

Lemma oneOfC_Coerce_skip before rest v path :
  Forall (λ c : Checker, ∃ e, c v path = Err e) before →
  oneOfC_Coerce (before ++ rest) v path = oneOfC_Coerce rest v path.
Proof.
  induction 1 as [|c before [e He] _ IH]; [done|].
  rewrite <- app_comm_cons. by rewrite (oneOfC_Coerce_Err _ _ _ _ e).
Qed.

Lemma constC_Coerce_eq `{GoRuntime} x path : Const x x path = Ok x.
Proof.
  unfold Const, constC_Coerce, DeepEqual. by rewrite bool_decide_eq_true_2.
Qed.

Lemma constC_Coerce_ne `{GoRuntime} x v path :
  v ≠ x → Const x v path = Err (error_ (Sprintf_v x) v path).
Proof.
  intros Hne. unfold Const, constC_Coerce, DeepEqual.
  by rewrite bool_decide_eq_false_2.
Qed.

(** C4: [OneOf] returns the result of the first alternative that succeeds,
    whatever the alternatives after it are (they are not called: the result
    is the same when they are replaced by anything, a panicking checker
    included); when every alternative returns an error, and when there is
    none, it returns the error with the empty expected description, the
    value and the path.  [OneOf(Const(1), Const(2))] accepts 2, returning
    2, and rejects 3. *)
Theorem C4_OneOf_first_success `{GoRuntime} :
  (∀ (before after : list Checker) (o : Checker) v path newv,
     Forall (λ c : Checker, ∃ e, c v path = Err e) before →
     o v path = Ok newv →
     OneOf (before ++ o :: after) v path = Ok newv)
  ∧ (∀ (options : list Checker) v path,
       Forall (λ c : Checker, ∃ e, c v path = Err e) options →
       OneOf options v path = Err (error_ EmptyString v path))
  ∧ (∀ v path, OneOf [] v path = Err (error_ EmptyString v path))
  ∧ (∀ path, OneOf [Const (VInt 1); Const (VInt 2)] (VInt 2) path = Ok (VInt 2))
  ∧ (∀ path, OneOf [Const (VInt 1); Const (VInt 2)] (VInt 3) path
             = Err (error_ EmptyString (VInt 3) path)).
Proof.
  unfold OneOf. split_and!.
  - intros before after o v path newv Hbefore Ho.
    rewrite oneOfC_Coerce_skip by done. simpl. by rewrite Ho.
  - intros options v path Hall.
    rewrite <- (app_nil_r options). by rewrite oneOfC_Coerce_skip.
  - done.
  - intros path. cbn [oneOfC_Coerce].
    rewrite constC_Coerce_ne by discriminate. by rewrite constC_Coerce_eq.
  - intros path. cbn [oneOfC_Coerce].
    by rewrite !constC_Coerce_ne by discriminate.
Qed.

(** The first part of C4 at [OneOf(Const(1), Const(2), Any)] and the value 2. *)
Lemma C4_OneOf_first_success_witness :
  @OneOf ([@Const refRuntime (VInt 1)] ++ @Const refRuntime (VInt 2) :: [Any])
    (VInt 2) ["p"] = Ok (VInt 2).
Proof.
  apply (proj1 (@C4_OneOf_first_success refRuntime)).
  - repeat constructor. eexists. vm_compute. reflexivity.
  - vm_compute. reflexivity.
Defined.

(** ** The loops of Schema.Coerce *)

Lemma setLast_vpath path name : setLast (vpath path) name = (path ++ ["."; name])%list.
Proof.
  unfold setLast, vpath. rewrite length_app. simpl.
  replace (length path + 2 - 1) with (length path + 1) by lia.
  rewrite insert_app_r. by simpl.
Qed.

Lemma MapIndex_stringKeyed v name :
  stringKeyed v = true → MapIndex v name = Ok (stringLookup v name).
Proof. by destruct v. Qed.

Lemma allStringKeys_Ok_true keys :
  allStringKeys (InterfaceValue <$> keys) = Ok true ↔ forallb isKStr keys = true.
Proof.
  induction keys as [|k keys IH]; [done|].
  by destruct k.
Qed.

Lemma hasStrictStringKeys_Ok_true `{GoRuntime} v :
  isMap v = true →
  hasStrictStringKeys v = Ok true ↔ stringKeyed v = true.
Proof.
  destruct v as [| | | | | m | m | m]; try done. intros _.
  unfold hasStrictStringKeys. simpl. rewrite allStringKeys_Ok_true.
  rewrite !forallb_forall. unfold rangeMap.
  split; intros Hall k Hk; apply Hall; revert Hk;
    rewrite <- !list_elem_of_In; by rewrite range_order_perm.
Qed.

Section loops.
Context `{GoRuntime} (s : Schema) (v : value) (path : list string).
Hypothesis Hkeyed : stringKeyed v = true.

Lemma fieldsLoop_Ok l out out' :
  NoDup l.*1 →
  fieldsLoop s v path l out = Ok out' ↔
    (∀ name checker, (name, checker) ∈ l →
       match fieldValue s (stringLookup v name) name with
       | None => out' !! name = out !! name
       | Some x =>
           ∃ newv, checker x (path ++ ["."; name])%list = Ok newv
                   ∧ out' !! name = Some newv
       end)
    ∧ (∀ name, name ∉ l.*1 → out' !! name = out !! name).
Proof.
  revert out. induction l as [|[name checker] l IH]; intros out Hnd.
  { simpl. split.
    - intros [= ->]. split; [|done]. intros ?? Hin. by apply elem_of_nil in Hin.
    - intros [_ Hout]. f_equal. apply map_eq. intros i.
      symmetry. apply Hout, not_elem_of_nil. }
  rewrite fmap_cons in Hnd. apply NoDup_cons in Hnd as [Hname Hnd].
  simpl in Hname. cbn [fieldsLoop]. rewrite (MapIndex_stringKeyed _ _ Hkeyed).
  cbn [mbind Result_bind]. rewrite setLast_vpath.
  destruct (fieldValue s (stringLookup v name) name) as [x|] eqn:Hfv.
  - destruct (checker x (path ++ ["."; name])%list) as [newv|e|msg] eqn:Hc;
      cbn [mbind Result_bind].
    + rewrite (IH _ Hnd). split.
      * intros [Hl Hrest]. split.
        -- intros name' checker' [[= -> ->]|Hin]%elem_of_cons.
           ++ rewrite Hfv. exists newv. split; [done|].
              rewrite (Hrest _ Hname). apply lookup_insert_eq.
           ++ specialize (Hl _ _ Hin).
              destruct (fieldValue s (stringLookup v name') name'); [done|].
              rewrite Hl. apply lookup_insert_ne. intros ->.
              apply Hname. apply list_elem_of_fmap. by exists (name', checker').
        -- intros name' [Hne Hnotin]%not_elem_of_cons.
           rewrite (Hrest _ Hnotin). by apply lookup_insert_ne.
      * intros [Hl Hrest]. split.
        -- intros name' checker' Hin.
           assert (name ≠ name') as Hne.
           { intros ->. apply Hname. apply list_elem_of_fmap.
             by exists (name', checker'). }
           specialize (Hl name' checker' (list_elem_of_further _ _ _ Hin)).
           destruct (fieldValue s (stringLookup v name') name'); [done|].
           by rewrite lookup_insert_ne.
        -- intros name' Hnotin. destruct (decide (name = name')) as [<-|Hne].
           ++ pose proof (Hl name checker (list_elem_of_here _ _)) as Hx.
              rewrite Hfv in Hx. destruct Hx as (newv' & Hc' & ->).
              rewrite Hc in Hc'. injection Hc' as ->.
              by rewrite lookup_insert_eq.
           ++ rewrite lookup_insert_ne by done.
              apply Hrest. by apply not_elem_of_cons.
    + split; [done|]. intros [Hl _].
      specialize (Hl name checker (list_elem_of_here _ _)).
      rewrite Hfv in Hl. destruct Hl as (? & Hc' & _). congruence.
    + split; [done|]. intros [Hl _].
      specialize (Hl name checker (list_elem_of_here _ _)).
      rewrite Hfv in Hl. destruct Hl as (? & Hc' & _). congruence.
  - rewrite (IH _ Hnd). split.
    + intros [Hl Hrest]. split.
      * intros name' checker' [[= -> ->]|Hin]%elem_of_cons.
        -- rewrite Hfv. by apply Hrest.
        -- by apply Hl.
      * intros name' [Hne Hnotin]%not_elem_of_cons. by apply Hrest.
    + intros [Hl Hrest]. split.
      * intros name' checker' Hin. apply Hl. by apply list_elem_of_further.
      * intros name' Hnotin. destruct (decide (name = name')) as [<-|Hne].
        -- specialize (Hl name checker (list_elem_of_here _ _)).
           by rewrite Hfv in Hl.
        -- apply Hrest. by apply not_elem_of_cons.
Qed.

(** The per-field loop over all of [s.Checkers], from the empty output. *)
Lemma fieldsLoop_Checkers out :
  fieldsLoop s v path (rangeMap (Checkers s)) ∅ = Ok out ↔
  ∀ name, fieldOutput s v path name (out !! name).
Proof.
  rewrite fieldsLoop_Ok by apply NoDup_fst_rangeMap.
  unfold fieldOutput. split.
  - intros [Hl Hrest] name.
    destruct (Checkers s !! name) as [checker|] eqn:Hc.
    + apply elem_of_rangeMap in Hc. specialize (Hl _ _ Hc).
      destruct (fieldValue _ _ _); [done|]. by rewrite Hl, lookup_empty.
    + rewrite Hrest, lookup_empty; [done|].
      rewrite elem_of_fst_rangeMap, Hc. by intros [? ?].
  - intros Hout. split.
    + intros name checker Hin%elem_of_rangeMap.
      specialize (Hout name). rewrite Hin in Hout.
      destruct (fieldValue _ _ _); [done|]. by rewrite lookup_empty.
    + intros name Hnotin. specialize (Hout name).
      rewrite elem_of_fst_rangeMap in Hnotin.
      destruct (Checkers s !! name); [|by rewrite lookup_empty].
      exfalso. by apply Hnotin.
Qed.
End loops.

Lemma dependenciesLoop_cases l out :
  (dependenciesLoop l out = Ok ()
   ∧ ∀ name dep, (name, dep) ∈ l → dependencyCheck out name dep = None)
  ∨ (∃ name dep e, (name, dep) ∈ l ∧ dependencyCheck out name dep = Some e
                   ∧ dependenciesLoop l out = Err e).
Proof.
  induction l as [|[name dep] l IH]; simpl.
  { left. split; [done|]. intros ?? Hin. by apply elem_of_nil in Hin. }
  destruct (dependencyCheck out name dep) as [e|] eqn:Hcheck.
  { right. exists name, dep, e. split_and!; [apply list_elem_of_here|done..]. }
  destruct IH as [[-> Hall]|(name' & dep' & e & Hin & Hcheck' & ->)].
  - left. split; [done|].
    intros name' dep' [[= -> ->]|Hin]%elem_of_cons; [done|by apply Hall].
  - right. exists name', dep', e. split_and!; [by apply list_elem_of_further|done..].
Qed.

Lemma MapKeys_MapIndexKey `{GoRuntime} v k :
  k ∈ MapKeys v → ∃ x, MapIndexKey v k = Ok x.
Proof.
  destruct v as [| | | | |m|m|m]; simpl; try by intros ?%elem_of_nil.
  all: intros (k' & -> & [x Hx]%elem_of_fst_rangeMap)%list_elem_of_fmap;
    exists x; simpl; by rewrite Hx.
Qed.

Section more_loops.
Context `{GoRuntime} (s : Schema) (v : value) (path : list string).

Lemma strictLoop_cases keys :
  (∀ k, k ∈ keys → ∃ x, MapIndexKey v k = Ok x) →
  (strictLoop s v path keys = Ok ()
   ∧ ∀ k, k ∈ keys → is_Some (Checkers s !! String_ k))
  ∨ (∃ k x, k ∈ keys ∧ Checkers s !! String_ k = None
            ∧ MapIndexKey v k = Ok x
            ∧ strictLoop s v path keys
              = Err (Errorf "%sunknown key %q (value %#v)"
                       [ArgStr (pathAsPrefix path); ArgStr (String_ k);
                        ArgVal x])).
Proof.
  induction keys as [|k keys IH]; intros Hkeys; simpl.
  { left. split; [done|]. intros ? Hin. by apply elem_of_nil in Hin. }
  destruct (Checkers s !! String_ k) as [checker|] eqn:Hc.
  - destruct IH as [[-> Hall]|(k' & x & Hin & Hc' & Hx & ->)].
    + intros k' Hin. apply Hkeys. by apply list_elem_of_further.
    + left. split; [done|].
      intros k' [->|Hin]%elem_of_cons; [by rewrite Hc|by apply Hall].
    + right. exists k', x. split_and!; [by apply list_elem_of_further|done..].
  - destruct (Hkeys k (list_elem_of_here _ _)) as [x Hx].
    right. exists k, x. rewrite Hx.
    split_and!; [apply list_elem_of_here|done..].
Qed.

Lemma defaultsLoop_unreachable l out :
  (∀ name d, (name, d) ∈ l → isOmit d = false →
             is_Some (Checkers s !! name) → is_Some (out !! name)) →
  defaultsLoop s v path l out = defaultsLoop_unknownOnly s l out.
Proof.
  induction l as [|[name d] l IH]; intros Hinv; [done|]. simpl.
  assert (defaultsLoop s v path l out = defaultsLoop_unknownOnly s l out)
    as IH'.
  { apply IH. intros name' d' Hin. apply Hinv. by apply list_elem_of_further. }
  destruct (isOmit d) eqn:Homit; [done|].
  destruct (out !! name) as [x|] eqn:Hout; [done|].
  destruct (Checkers s !! name) as [checker|] eqn:Hc; [|done].
  destruct (Hinv name d (list_elem_of_here _ _) Homit) as [x Hx]; [by eexists|].
  congruence.
Qed.

Lemma defaultsLoop_unknownOnly_cases l out :
  (defaultsLoop_unknownOnly s l out = Ok out
   ∧ ∀ name d, (name, d) ∈ l → isOmit d = false → out !! name = None →
               is_Some (Checkers s !! name))
  ∨ (∃ name d, (name, d) ∈ l ∧ isOmit d = false ∧ out !! name = None
               ∧ Checkers s !! name = None
               ∧ defaultsLoop_unknownOnly s l out
                 = Err (Errorf "got default value for unknown field %q"
                          [ArgStr name])).
Proof.
  induction l as [|[name d] l IH]; simpl.
  { left. split; [done|]. intros ?? Hin. by apply elem_of_nil in Hin. }
  assert (isOmit d = true ∨ is_Some (out !! name)
          ∨ is_Some (Checkers s !! name)
          ∨ (isOmit d = false ∧ out !! name = None
             ∧ Checkers s !! name = None)) as Hcase.
  { destruct (isOmit d); [by left|]. destruct (out !! name); [by eauto|].
    destruct (Checkers s !! name); by eauto 10. }
  assert (isOmit d = true ∨ is_Some (out !! name)
          ∨ is_Some (Checkers s !! name) →
          (if isOmit d then defaultsLoop_unknownOnly s l out
           else match out !! name with
                | Some _ => defaultsLoop_unknownOnly s l out
                | None =>
                    match Checkers s !! name with
                    | Some _ => defaultsLoop_unknownOnly s l out
                    | None =>
                        Err (Errorf "got default value for unknown field %q"
                               [ArgStr name])
                    end
                end) = defaultsLoop_unknownOnly s l out) as Hstep.
  { intros [->|[[? ->]|[? ->]]]; [done|by destruct (isOmit d)|].
    destruct (isOmit d); [done|]. by destruct (out !! name). }
  destruct Hcase as [Hcase|[Hcase|[Hcase|(Homit & Hout & Hc)]]].
  4: { right. exists name, d. rewrite Homit, Hout, Hc.
       split_and!; [apply list_elem_of_here|done..]. }
  all: rewrite Hstep by eauto;
    destruct IH as [[-> Hall]|(name' & d' & Hin & Homit' & Hout' & Hc' & ->)];
    [ left; split; [done|];
      intros name' d' [[= -> ->]|Hin]%elem_of_cons Homit' Hout';
      [|by eapply Hall]
    | right; exists name', d';
      split_and!; [by apply list_elem_of_further|done..] ].
  - congruence.
  - rewrite Hout' in Hcase. by destruct Hcase.
  - done.
Qed.
End more_loops.

Lemma fieldOutput_defaulted s v path name o d :
  fieldOutput s v path name o →
  is_Some (Checkers s !! name) →
  Defaults s !! name = Some d → isOmit d = false →
  is_Some o.
Proof.
  unfold fieldOutput, fieldValue. intros Hout [checker Hc] Hd Homit.
  rewrite Hc, Hd, Homit in Hout.
  destruct (stringLookup v name); destruct Hout as (newv & _ & ->); by eexists.
Qed.

Lemma fieldOutput_unknown s v path name o :
  fieldOutput s v path name o → Checkers s !! name = None → o = None.
Proof. unfold fieldOutput. intros Hout Hc. by rewrite Hc in Hout. Qed.

(** ** Schema.Coerce, stage by stage *)

Section stages.
Context `{GoRuntime} (s : Schema) (v : value) (path : list string).

Lemma stringKeyed_isMap : stringKeyed v = true → isMap v = true.
Proof. by destruct v. Qed.

(** Once the shape check has passed, the pass over the defaults never
    reaches a checker. *)
Lemma coerceFields_stringKeyed :
  stringKeyed v = true →
  coerceFields s v path =
    ((if Strict s then strictLoop s v path (MapKeys v) else Ok ());;
     out ← fieldsLoop s v path (rangeMap (Checkers s)) ∅;
     defaultsLoop_unknownOnly s (rangeMap (Defaults s)) out).
Proof.
  intros Hkeyed. unfold coerceFields.
  rewrite (stringKeyed_isMap Hkeyed). cbn [negb].
  rewrite (proj2 (hasStrictStringKeys_Ok_true v (stringKeyed_isMap Hkeyed)) Hkeyed).
  cbn [mbind Result_bind negb].
  destruct (if Strict s then strictLoop s v path (MapKeys v) else Ok ());
    [|done..].
  destruct (fieldsLoop s v path (rangeMap (Checkers s)) ∅) as [out| |] eqn:Hfields;
    [|done..].
  cbn [mbind Result_bind]. apply defaultsLoop_unreachable.
  intros name d Hin%elem_of_rangeMap Homit Hc.
  pose proof (proj1 (fieldsLoop_Checkers s v path Hkeyed out) Hfields) as Hout.
  by eapply fieldOutput_defaulted.
Qed.

Lemma coerceFields_not_stringKeyed out :
  stringKeyed v = false → coerceFields s v path ≠ Ok out.
Proof.
  intros Hkeyed. unfold coerceFields.
  destruct (isMap v) eqn:Hmap; [|done]. cbn [negb].
  destruct (hasStrictStringKeys v) as [[]| |] eqn:Hstrings; [|done..].
  apply hasStrictStringKeys_Ok_true in Hstrings; congruence.
Qed.

Lemma coerceFields_Ok_iff out :
  coerceFields s v path = Ok out ↔
    stringKeyed v = true ∧ strictOk s v
    ∧ (∀ name, fieldOutput s v path name (out !! name))
    ∧ defaultsKnown s.
Proof.
  destruct (stringKeyed v) eqn:Hkeyed.
  2: { split; [by intros ?%coerceFields_not_stringKeyed|by intros [? _]]. }
  rewrite (coerceFields_stringKeyed Hkeyed). unfold strictOk.
  assert (((if Strict s then strictLoop s v path (MapKeys v) else Ok ()) = Ok ()
           ∧ (Strict s = true →
              ∀ k, k ∈ MapKeys v → is_Some (Checkers s !! String_ k)))
          ∨ (∃ e, (if Strict s then strictLoop s v path (MapKeys v) else Ok ())
                  = Err e
               ∧ ¬ (Strict s = true →
                    ∀ k, k ∈ MapKeys v → is_Some (Checkers s !! String_ k))))
    as [[-> Hstrict]|(e & -> & Hstrict)].
  { destruct (Strict s); [|by left].
    destruct (strictLoop_cases s v path (MapKeys v)) as [[-> Hall]|Hbad].
    - intros k. apply MapKeys_MapIndexKey.
    - left. by split.
    - destruct Hbad as (k & x & Hin & Hc & _ & ->). right. eexists.
      split; [done|]. intros Hall. specialize (Hall eq_refl k Hin).
      rewrite Hc in Hall. by destruct Hall. }
  2: { cbn [mbind Result_bind]. split; [done|]. by intros (_ & ? & _). }
  cbn [mbind Result_bind].
  destruct (fieldsLoop s v path (rangeMap (Checkers s)) ∅) as [out0|e|msg]
    eqn:Hfields; cbn [mbind Result_bind].
  2,3: split; [done|]; intros (_ & _ & Hout & _);
    apply (fieldsLoop_Checkers s v path Hkeyed) in Hout; congruence.
  pose proof (proj1 (fieldsLoop_Checkers s v path Hkeyed out0) Hfields) as Hout0.
  destruct (defaultsLoop_unknownOnly_cases s (rangeMap (Defaults s)) out0)
    as [[-> Hknown]|(name & d & Hin & Homit & _ & Hc & ->)].
  - split.
    + intros [= <-]. split_and!; [done..|].
      intros name d Hd Homit.
      destruct (Checkers s !! name) as [checker|] eqn:Hc; [by eexists|].
      rewrite <- Hc. apply (Hknown name d); [by apply elem_of_rangeMap|done|].
      by eapply fieldOutput_unknown.
    + intros (_ & _ & Hout & _).
      apply (fieldsLoop_Checkers s v path Hkeyed) in Hout. congruence.
  - split; [done|]. intros (_ & _ & _ & Hknown).
    apply elem_of_rangeMap in Hin. specialize (Hknown name d Hin Homit).
    rewrite Hc in Hknown. by destruct Hknown.
Qed.

Lemma Schema_Coerce_Ok_iff w :
  Schema_Coerce s v path = Ok w ↔
    ∃ out, w = VMapS out ∧ coerceFields s v path = Ok out
           ∧ ∀ name dep, Dependencies s !! name = Some dep →
                         dependencyCheck out name dep = None.
Proof.
  unfold Schema_Coerce.
  destruct (coerceFields s v path) as [out|e|msg]; cbn [mbind Result_bind].
  2,3: split; [done|by intros (? & _ & ? & _)].
  destruct (dependenciesLoop_cases (rangeMap (Dependencies s)) out)
    as [[-> Hall]|(name & dep & e & Hin & Hcheck & ->)]; cbn [mbind Result_bind].
  - split.
    + intros [= <-]. exists out. split_and!; [done..|].
      intros name dep Hin. apply Hall. by apply elem_of_rangeMap.
    + by intros (? & -> & [= <-] & _).
  - split; [done|]. intros (? & _ & [= <-] & Hall).
    apply elem_of_rangeMap in Hin. rewrite (Hall _ _ Hin) in Hcheck. done.
Qed.

(** The pass over the defaults can be replaced by the one that only
    raises the unknown-field error, for every schema and input. *)
Lemma Schema_Coerce_unknownOnly_eq :
  Schema_Coerce s v path = Schema_Coerce_unknownOnly s v path.
Proof.
  unfold Schema_Coerce. destruct (stringKeyed v) eqn:Hkeyed.
  - rewrite (coerceFields_stringKeyed Hkeyed). unfold Schema_Coerce_unknownOnly.
    rewrite (stringKeyed_isMap Hkeyed). cbn [negb].
    rewrite (proj2 (hasStrictStringKeys_Ok_true v (stringKeyed_isMap Hkeyed)) Hkeyed).
    cbn [mbind Result_bind negb].
    destruct (if Strict s then strictLoop s v path (MapKeys v) else Ok ());
      [|done..].
    cbn [mbind Result_bind].
    by destruct (fieldsLoop s v path (rangeMap (Checkers s)) ∅).
  - unfold coerceFields, Schema_Coerce_unknownOnly.
    destruct (isMap v) eqn:Hmap; [|done]. cbn [negb].
    destruct (hasStrictStringKeys v) as [[]| |] eqn:Hstrings; [|done..].
    apply hasStrictStringKeys_Ok_true in Hstrings; congruence.
Qed.
End stages.

(** C9: for a schema whose defaults all name fields with a checker, the
    pass over the defaults never calls a checker on the whole input map:
    [Schema.Coerce] equals the variant whose pass over the defaults only
    raises the unknown-field error; once the per-field loop has succeeded,
    every field with a checker and a default other than Omit is in the
    output, and the pass over the defaults returns the output as it got
    it. *)
Theorem C9_backfill_never_coerces `{GoRuntime} (s : Schema) :
  (∀ name, is_Some (Defaults s !! name) → is_Some (Checkers s !! name)) →
  ∀ v path,
    Schema_Coerce s v path = Schema_Coerce_unknownOnly s v path
    ∧ ∀ out, stringKeyed v = true →
        fieldsLoop s v path (rangeMap (Checkers s)) ∅ = Ok out →
        (∀ name d, is_Some (Checkers s !! name) →
           Defaults s !! name = Some d → isOmit d = false →
           is_Some (out !! name))
        ∧ defaultsLoop s v path (rangeMap (Defaults s)) out = Ok out.
Proof.
  intros Hknown v path. split; [apply Schema_Coerce_unknownOnly_eq|].
  intros out Hkeyed Hfields.
  pose proof (proj1 (fieldsLoop_Checkers s v path Hkeyed out) Hfields) as Hout.
  assert (∀ name d, is_Some (Checkers s !! name) →
            Defaults s !! name = Some d → isOmit d = false →
            is_Some (out !! name)) as Hplaced.
  { intros name d Hc Hd Homit. by eapply fieldOutput_defaulted. }
  split; [done|].
  rewrite defaultsLoop_unreachable.
  - destruct (defaultsLoop_unknownOnly_cases s (rangeMap (Defaults s)) out)
      as [[-> _]|(name & d & Hin%elem_of_rangeMap & _ & _ & Hc & _)]; [done|].
    destruct (Hknown name) as [checker Hc']; [by eexists|]. congruence.
  - intros name d Hin%elem_of_rangeMap Homit Hc. by eapply Hplaced.
Qed.

(** C9 at a schema with the checker ["a": Any] and the default ["a": 5],
    and the empty map. *)
Lemma C9_backfill_never_coerces_witness :
  @Schema_Coerce refRuntime (FieldMap {[ "a" := Any ]} {[ "a" := VInt 5 ]})
    (VMapS ∅) []
  = @Schema_Coerce_unknownOnly refRuntime
      (FieldMap {[ "a" := Any ]} {[ "a" := VInt 5 ]}) (VMapS ∅) [].
Proof.
  apply (@C9_backfill_never_coerces refRuntime
           (FieldMap {[ "a" := Any ]} {[ "a" := VInt 5 ]})).
  intros name. simpl. destruct (decide (name = "a")) as [->|Hne].
  - intros _. vm_compute. eauto.
  - rewrite lookup_singleton_ne by done. by intros [? ?].
Defined.

(** ** Dependency resolution *)

Lemma dependencyCheck_rule out name dep :
  dependencyCheck out name dep = None ↔
  dependencyRule (bool_decide (is_Some (out !! name)))
                 (bool_decide (is_Some (out !! DependsOn dep)))
                 (DeepEqual (default VNil (out !! DependsOn dep)) (Value dep))
  = true.
Proof.
  unfold dependencyCheck, dependencyRule.
  destruct (bool_decide (is_Some (out !! name))),
    (bool_decide (is_Some (out !! DependsOn dep))),
    (DeepEqual (default VNil (out !! DependsOn dep)) (Value dep)); by simpl.
Qed.

Lemma Schema_Coerce_dependencies `{GoRuntime} s v path out :
  coerceFields s v path = Ok out →
  ((∀ name dep, Dependencies s !! name = Some dep →
                dependencyCheck out name dep = None) →
   Schema_Coerce s v path = Ok (VMapS out))
  ∧ (∀ name dep, Dependencies s !! name = Some dep →
       dependencyCheck out name dep ≠ None →
       ∃ name' dep' e, Dependencies s !! name' = Some dep'
                       ∧ dependencyCheck out name' dep' = Some e
                       ∧ Schema_Coerce s v path = Err e).
Proof.
  intros Hfields. unfold Schema_Coerce. rewrite Hfields. cbn [mbind Result_bind].
  destruct (dependenciesLoop_cases (rangeMap (Dependencies s)) out)
    as [[-> Hall]|(name' & dep' & e & Hin%elem_of_rangeMap & Hcheck & ->)];
    cbn [mbind Result_bind].
  - split; [done|]. intros name dep Hin%elem_of_rangeMap Hcheck.
    by specialize (Hall _ _ Hin).
  - split; [|by eauto 10]. intros Hall. rewrite (Hall _ _ Hin) in Hcheck. done.
Qed.

(** [coerceFields] of the schema of the example: both fields are handed to
    [Any], a missing ["a"] as nil, and a missing ["b"] is skipped. *)
Lemma coerceFields_dependencySchema `{GoRuntime} m path :
  coerceFields dependencySchema (VMapS m) path
  = Ok (match m !! "b" with
        | Some b => <[ "b" := b ]> {[ "a" := default VNil (m !! "a") ]}
        | None => {[ "a" := default VNil (m !! "a") ]}
        end).
Proof.
  apply coerceFields_Ok_iff. split_and!; [done|done| |done].
  intros name. unfold fieldOutput, fieldValue. simpl.
  destruct (decide (name = "a")) as [->|Ha].
  { replace (({[ "a" := Any; "b" := Any ]} : gmap string _) !! "a")
      with (Some Any) by done.
    replace ((∅ : gmap string value) !! "a") with (@None value) by done.
    replace (({[ "b" := {| DependsOn := "a"; Value := VBool true |} ]}
              : gmap string _) !! "a") with (@None Dependency) by done.
    assert (∃ newv, Any (default VNil (m !! "a")) (path ++ ["."; "a"])%list = Ok newv
              ∧ (match m !! "b" with
                 | Some b => <[ "b" := b ]> {[ "a" := default VNil (m !! "a") ]}
                 | None => {[ "a" := default VNil (m !! "a") ]}
                 end : gmap string value) !! "a" = Some newv) as Hgoal.
    { eexists. split; [done|]. destruct (m !! "b"); by simplify_map_eq. }
    by destruct (m !! "a"). }
  rewrite lookup_insert_ne by done.
  destruct (decide (name = "b")) as [->|Hb].
  { rewrite !lookup_singleton_eq, lookup_empty.
    destruct (m !! "b") as [b|]; [|by simplify_map_eq].
    exists b. by simplify_map_eq. }
  rewrite lookup_singleton_ne by done. destruct (m !! "b"); by simplify_map_eq.
Qed.

Lemma Schema_Coerce_dependencySchema `{GoRuntime} m path :
  Schema_Coerce dependencySchema (VMapS m) path
  = let out := match m !! "b" with
               | Some b => <[ "b" := b ]> {[ "a" := default VNil (m !! "a") ]}
               | None => {[ "a" := default VNil (m !! "a") ]}
               end in
    match dependencyCheck out "b" {| DependsOn := "a"; Value := VBool true |} with
    | Some e => Err e
    | None => Ok (VMapS out)
    end.
Proof.
  unfold Schema_Coerce. rewrite coerceFields_dependencySchema.
  cbn [mbind Result_bind]. unfold dependencySchema at 1. cbn [Dependencies].
  rewrite rangeMap_singleton. cbn [dependenciesLoop].
  by destruct (dependencyCheck _ _ _).
Qed.

(** C1: the switch of the dependency loop is the four-way rule of the
    specification, read on the output map of the coercion and defaulting
    stages: neither field present, or both present with the required value,
    or only the depended-on field present with another value, is fine, and
    the three other cases are errors.  [Schema.Coerce] returns the output
    when every entry of [Dependencies] is fine and the error of a violated
    entry otherwise.  For [{"b": {DependsOn: "a", Value: true}}] the input
    [{"a": true, "b": 1}] succeeds, [{"a": false, "b": 1}] and [{"a": true}]
    fail, and [{}] succeeds. *)
Theorem C1_dependency_resolution `{GoRuntime} :
  (∀ out name dep,
     dependencyCheck out name dep = None ↔
     dependencyRule (bool_decide (is_Some (out !! name)))
       (bool_decide (is_Some (out !! DependsOn dep)))
       (DeepEqual (default VNil (out !! DependsOn dep)) (Value dep)) = true)
  ∧ (∀ s v path out,
       coerceFields s v path = Ok out →
       ((∀ name dep, Dependencies s !! name = Some dep →
                     dependencyCheck out name dep = None) →
        Schema_Coerce s v path = Ok (VMapS out))
       ∧ (∀ name dep, Dependencies s !! name = Some dep →
            dependencyCheck out name dep ≠ None →
            ∃ name' dep' e, Dependencies s !! name' = Some dep'
                            ∧ dependencyCheck out name' dep' = Some e
                            ∧ Schema_Coerce s v path = Err e))
  ∧ (∀ path,
       Schema_Coerce dependencySchema
         (VMapS {[ "a" := VBool true; "b" := VInt 1 ]}) path
       = Ok (VMapS {[ "a" := VBool true; "b" := VInt 1 ]}))
  ∧ (∀ path,
       Schema_Coerce dependencySchema
         (VMapS {[ "a" := VBool false; "b" := VInt 1 ]}) path
       = Err (Errorf
           "field %q should not be specified when %q is %v. %q requires %q to have value %v"
           [ArgStr "b"; ArgStr "a"; ArgVal (VBool false); ArgStr "b";
            ArgStr "a"; ArgVal (VBool true)]))
  ∧ (∀ path,
       Schema_Coerce dependencySchema (VMapS {[ "a" := VBool true ]}) path
       = Err (Errorf
           "field %q exists with value %v, but required field %q is missing"
           [ArgStr "a"; ArgVal (VBool true); ArgStr "b"]))
  ∧ (∀ path,
       Schema_Coerce dependencySchema (VMapS ∅) path
       = Ok (VMapS {[ "a" := VNil ]})).
Proof.
  split_and!.
  - apply dependencyCheck_rule.
  - intros s v path out. apply Schema_Coerce_dependencies.
  - intros path. rewrite Schema_Coerce_dependencySchema. by vm_compute.
  - intros path. rewrite Schema_Coerce_dependencySchema. by vm_compute.
  - intros path. rewrite Schema_Coerce_dependencySchema. by vm_compute.
  - intros path. rewrite Schema_Coerce_dependencySchema. by vm_compute.
Qed.

(** The second part of C1 at the schema of the example and the input
    [{"a": true, "b": 1}]. *)
Lemma C1_dependency_resolution_witness :
  @Schema_Coerce refRuntime dependencySchema
    (VMapS {[ "a" := VBool true; "b" := VInt 1 ]}) []
  = Ok (VMapS {[ "a" := VBool true; "b" := VInt 1 ]}).
Proof.
  refine (proj1 (proj1 (proj2 (@C1_dependency_resolution refRuntime))
                   dependencySchema
                   (VMapS {[ "a" := VBool true; "b" := VInt 1 ]}) []
                   {[ "a" := VBool true; "b" := VInt 1 ]} _) _).
  - vm_compute. reflexivity.
  - intros name dep Hdep. unfold dependencySchema in Hdep. simpl in Hdep.
    apply lookup_singleton_Some in Hdep as [<- <-]. vm_compute. reflexivity.
Defined.

(** ** Defaults *)

Lemma elem_of_MapKeys_VMapS `{GoRuntime} m k :
  k ∈ MapKeys (VMapS m) ↔ ∃ name, k = StringValue name ∧ is_Some (m !! name).
Proof.
  simpl. rewrite list_elem_of_fmap. by setoid_rewrite elem_of_fst_rangeMap.
Qed.

Lemma strictOk_VMapS `{GoRuntime} s m :
  strictOk s (VMapS m) ↔
  (Strict s = true → ∀ name, is_Some (m !! name) → is_Some (Checkers s !! name)).
Proof.
  unfold strictOk. split; intros Hok Hstrict.
  - intros name Hname. apply (Hok Hstrict (StringValue name)).
    apply elem_of_MapKeys_VMapS. by exists name.
  - intros k (name & -> & Hname)%elem_of_MapKeys_VMapS. by apply Hok.
Qed.

Lemma fieldValue_absent_default s name d :
  Defaults s !! name = Some d → isOmit d = false →
  fieldValue s None name = Some d.
Proof. unfold fieldValue. by intros -> ->. Qed.

Lemma fieldValue_absent_Omit s name :
  Defaults s !! name = Some VOmit → fieldValue s None name = None.
Proof. unfold fieldValue. by intros ->. Qed.

Section defaults.
Context `{GoRuntime} (s : Schema) (F : string).
Context (checker : value → list string → Result value).
Hypothesis HF : Checkers s !! F = Some checker.

Lemma Schema_Coerce_Omit v path w :
  stringLookup v F = None → Defaults s !! F = Some VOmit →
  Schema_Coerce s v path = Ok w →
  ∃ out, w = VMapS out ∧ out !! F = None.
Proof.
  intros Habsent Hd (out & -> & Hfields & _)%Schema_Coerce_Ok_iff.
  exists out. split; [done|].
  apply coerceFields_Ok_iff in Hfields as (_ & _ & Hout & _).
  specialize (Hout F). unfold fieldOutput in Hout.
  by rewrite HF, Habsent, (fieldValue_absent_Omit _ _ Hd) in Hout.
Qed.

Lemma Schema_Coerce_default v path w d :
  stringLookup v F = None → Defaults s !! F = Some d → isOmit d = false →
  Schema_Coerce s v path = Ok w →
  ∃ out newv, w = VMapS out
              ∧ checker d (path ++ ["."; F])%list = Ok newv
              ∧ out !! F = Some newv.
Proof.
  intros Habsent Hd Homit (out & -> & Hfields & _)%Schema_Coerce_Ok_iff.
  apply coerceFields_Ok_iff in Hfields as (_ & _ & Hout & _).
  specialize (Hout F). unfold fieldOutput in Hout.
  rewrite HF, Habsent, (fieldValue_absent_default _ _ _ Hd Homit) in Hout.
  destruct Hout as (newv & Hc & HoutF). by exists out, newv.
Qed.

(** A field left out of a [map[string]interface{}] is coerced as if the
    input held its default. *)
Lemma Schema_Coerce_default_as_present m path w d :
  m !! F = None → Defaults s !! F = Some d → isOmit d = false →
  Schema_Coerce s (VMapS m) path = Ok w ↔
  Schema_Coerce s (VMapS (<[F := d]> m)) path = Ok w.
Proof.
  intros Habsent Hd Homit. rewrite !Schema_Coerce_Ok_iff.
  apply exist_proper. intros out.
  apply and_iff_compat_l, and_iff_compat_r.
  rewrite !coerceFields_Ok_iff, !strictOk_VMapS.
  assert ((Strict s = true →
           ∀ name, is_Some (m !! name) → is_Some (Checkers s !! name))
          ↔ (Strict s = true →
             ∀ name, is_Some (<[F := d]> m !! name) →
                     is_Some (Checkers s !! name))) as Hstrict.
  { split; intros Hok Hstrict name Hname.
    - destruct (decide (name = F)) as [->|Hne]; [by rewrite HF|].
      apply (Hok Hstrict). by rewrite lookup_insert_ne in Hname.
    - apply (Hok Hstrict). destruct (decide (name = F)) as [->|Hne].
      + by rewrite lookup_insert_eq.
      + by rewrite lookup_insert_ne. }
  assert ((∀ name, fieldOutput s (VMapS m) path name (out !! name))
          ↔ (∀ name, fieldOutput s (VMapS (<[F := d]> m)) path name
                       (out !! name))) as Hfields.
  { apply forall_proper. intros name. unfold fieldOutput. simpl.
    destruct (decide (name = F)) as [->|Hne].
    - rewrite lookup_insert_eq, Habsent, HF.
      by rewrite (fieldValue_absent_default _ _ _ Hd Homit).
    - by rewrite lookup_insert_ne. }
  simpl. tauto.
Qed.
End defaults.

Lemma Schema_Coerce_FieldMap_default `{GoRuntime}
    (checker : value → list string → Result value) name d path newv :
  isOmit d = false →
  checker d (path ++ ["."; name])%list = Ok newv →
  Schema_Coerce (FieldMap {[ name := checker ]} {[ name := d ]}) (VMapS ∅) path
  = Ok (VMapS {[ name := newv ]}).
Proof.
  intros Homit Hc. apply Schema_Coerce_Ok_iff. exists {[ name := newv ]}.
  split_and!; [done| |done].
  apply coerceFields_Ok_iff. split_and!; [done|done| |].
  - intros name'. unfold fieldOutput, fieldValue. simpl.
    destruct (decide (name' = name)) as [->|Hne].
    + rewrite !lookup_singleton_eq, lookup_empty, Homit. by exists newv.
    + by rewrite !lookup_singleton_ne.
  - unfold defaultsKnown. simpl.
    intros name' d' [-> ->]%lookup_singleton_Some _.
    rewrite lookup_singleton_eq. by eexists.
Qed.

Lemma Schema_Coerce_FieldMap_Omit `{GoRuntime}
    (checker : value → list string → Result value) name path :
  Schema_Coerce (FieldMap {[ name := checker ]} {[ name := VOmit ]}) (VMapS ∅) path
  = Ok (VMapS ∅).
Proof.
  apply Schema_Coerce_Ok_iff. exists ∅. split_and!; [done| |done].
  apply coerceFields_Ok_iff. split_and!; [done|done| |].
  - intros name'. unfold fieldOutput, fieldValue. simpl.
    destruct (decide (name' = name)) as [->|Hne].
    + by rewrite !lookup_singleton_eq, lookup_empty.
    + by rewrite !lookup_singleton_ne.
  - unfold defaultsKnown. simpl.
    by intros name' d' [-> <-]%lookup_singleton_Some.
Qed.

(** C2: for a field [F] with a checker that the input map does not hold:
    when its default is Omit the output has no key [F]; when its default is
    any other value [d], the output holds under [F] what [F]'s checker
    returns for [d] at the path of the field, a failure of the checker on
    [d] makes the whole Coerce fail, and the result is the one for the
    input with [F] set to [d].  With the checker of ["a"] accepting 5 and
    the default ["a": 5] the empty map is coerced to [{"a": 5}]; with the
    default ["a": Omit] it is coerced to the empty map. *)
Theorem C2_defaults `{GoRuntime} :
  (∀ s F (checker : value → list string → Result value) v path,
     Checkers s !! F = Some checker →
     stringLookup v F = None →
     (Defaults s !! F = Some VOmit →
      ∀ w, Schema_Coerce s v path = Ok w →
           ∃ out, w = VMapS out ∧ out !! F = None)
     ∧ (∀ d, Defaults s !! F = Some d → isOmit d = false →
          (∀ w, Schema_Coerce s v path = Ok w →
                ∃ out newv, w = VMapS out
                            ∧ checker d (path ++ ["."; F])%list = Ok newv
                            ∧ out !! F = Some newv)
          ∧ (isOk (checker d (path ++ ["."; F])%list) = false →
             isOk (Schema_Coerce s v path) = false)
          ∧ (∀ m w, v = VMapS m →
               Schema_Coerce s (VMapS m) path = Ok w ↔
               Schema_Coerce s (VMapS (<[F := d]> m)) path = Ok w)))
  ∧ (∀ (intChecker : value → list string → Result value) path,
       intChecker (VInt 5) (path ++ ["."; "a"])%list = Ok (VInt 5) →
       Schema_Coerce (FieldMap {[ "a" := intChecker ]} {[ "a" := VInt 5 ]})
         (VMapS ∅) path
       = Ok (VMapS {[ "a" := VInt 5 ]}))
  ∧ (∀ (checker : value → list string → Result value) path,
       Schema_Coerce (FieldMap {[ "a" := checker ]} {[ "a" := VOmit ]})
         (VMapS ∅) path
       = Ok (VMapS ∅)).
Proof.
  split_and!.
  - intros s F checker v path HF Habsent. split.
    { intros Hd w. by apply Schema_Coerce_Omit with checker. }
    intros d Hd Homit. split_and!.
    + intros w. by apply Schema_Coerce_default.
    + intros Hfail. destruct (Schema_Coerce s v path) as [w| |] eqn:Hw; [|done..].
      destruct (Schema_Coerce_default s F checker HF v path w d)
        as (out & newv & _ & Hc & _); [done..|].
      by rewrite Hc in Hfail.
    + intros m w ->. by apply Schema_Coerce_default_as_present with checker.
  - intros intChecker path Hc. by apply Schema_Coerce_FieldMap_default.
  - intros checker path. apply Schema_Coerce_FieldMap_Omit.
Qed.

(** The first part of C2 at the checker ["a": Any], the default ["a": 5]
    and the empty map: coercing it is coercing [{"a": 5}]. *)
Lemma C2_defaults_witness :
  @Schema_Coerce refRuntime (FieldMap {[ "a" := Any ]} {[ "a" := VInt 5 ]})
    (VMapS ∅) [] = Ok (VMapS {[ "a" := VInt 5 ]}) ↔
  @Schema_Coerce refRuntime (FieldMap {[ "a" := Any ]} {[ "a" := VInt 5 ]})
    (VMapS (<[ "a" := VInt 5 ]> ∅)) [] = Ok (VMapS {[ "a" := VInt 5 ]}).
Proof.
  refine (proj2 (proj2 (proj2
    (proj1 (@C2_defaults refRuntime)
       (FieldMap {[ "a" := Any ]} {[ "a" := VInt 5 ]}) "a" Any (VMapS ∅) [] _ _)
    (VInt 5) _ _)) ∅ (VMapS {[ "a" := VInt 5 ]}) _).
  all: vm_compute; reflexivity.
Defined.

(** ** The shape check and the strict check *)

Lemma Schema_Coerce_not_map `{GoRuntime} s v path :
  isMap v = false → Schema_Coerce s v path = Err (error_ "map" v path).
Proof. intros Hmap. unfold Schema_Coerce, coerceFields. by rewrite Hmap. Qed.

Lemma Schema_Coerce_VMapZ `{GoRuntime} s m path :
  Schema_Coerce s (VMapZ m) path = Err (error_ "map[string]" (VMapZ m) path).
Proof. done. Qed.

Lemma allStringKeys_no_nil keys :
  KNil ∉ keys →
  allStringKeys (InterfaceValue <$> keys) = Ok (forallb isKStr keys).
Proof.
  induction keys as [|k keys IH]; [done|].
  intros [Hk Hkeys]%not_elem_of_cons. destruct k; simpl; try done. by apply IH.
Qed.

(** A [map[interface{}]interface{}] without the nil key, one of whose keys
    is not a string, fails the shape check with an error. *)
Lemma Schema_Coerce_VMapI_other_key `{GoRuntime} s m path k :
  m !! KNil = None → is_Some (m !! k) → isKStr k = false →
  Schema_Coerce s (VMapI m) path = Err (error_ "map[string]" (VMapI m) path).
Proof.
  intros Hnil Hk Hstr. unfold Schema_Coerce, coerceFields, hasStrictStringKeys.
  simpl. rewrite allStringKeys_no_nil.
  - assert (forallb isKStr (rangeMap m).*1 = false) as ->; [|done].
    apply not_true_is_false. rewrite forallb_forall. intros Hall.
    specialize (Hall k). rewrite <- list_elem_of_In, elem_of_fst_rangeMap in Hall.
    rewrite Hall in Hstr; done.
  - rewrite elem_of_fst_rangeMap, Hnil. by intros [? ?].
Qed.

(** On a [map[string]interface{}] the strict check finds an unknown key
    exactly when there is one, and then [Coerce] returns its error
    whatever the checkers of the fields do. *)
Lemma Schema_Coerce_strict_VMapS `{GoRuntime} s m path :
  Strict s = true →
  (strictLoop s (VMapS m) path (MapKeys (VMapS m)) = Ok ()
   ∧ ∀ name, is_Some (m !! name) → is_Some (Checkers s !! name))
  ∨ (∃ name x, m !! name = Some x ∧ Checkers s !! name = None
       ∧ Schema_Coerce s (VMapS m) path
         = Err (Errorf "%sunknown key %q (value %#v)"
                  [ArgStr (pathAsPrefix path); ArgStr name; ArgVal x])).
Proof.
  intros Hstrict.
  destruct (strictLoop_cases s (VMapS m) path (MapKeys (VMapS m)))
    as [[Hloop Hall]|(k & x & Hin & Hc & Hx & Hloop)].
  - intros k. apply MapKeys_MapIndexKey.
  - left. split; [done|]. intros name Hname. apply (Hall (StringValue name)).
    apply elem_of_MapKeys_VMapS. by exists name.
  - right. apply elem_of_MapKeys_VMapS in Hin as (name & -> & Hname).
    exists name, x. split_and!; [|done|].
    + simpl in Hx. by destruct (m !! name); simplify_eq.
    + unfold Schema_Coerce, coerceFields, hasStrictStringKeys.
      cbn [isMap negb Type_Key mbind Result_bind]. simpl in Hloop |- *.
      by rewrite Hstrict, Hloop.
Qed.

(** The order of a [range] shows: of two unknown keys the strict check
    reports the one it meets first, and a map with the keys nil and 3 makes
    [hasStrictStringKeys] panic or return false by the key it meets
    first. *)
Example strict_check_order :
  @Schema_Coerce refRuntime (StrictFieldMap ∅ ∅)
    (VMapS {[ "a" := VInt 1; "b" := VInt 2 ]}) ["p"]
  = Err (Errorf "%sunknown key %q (value %#v)"
           [ArgStr "p: "; ArgStr "a"; ArgVal (VInt 1)])
  ∧ @Schema_Coerce revRuntime (StrictFieldMap ∅ ∅)
      (VMapS {[ "a" := VInt 1; "b" := VInt 2 ]}) ["p"]
    = Err (Errorf "%sunknown key %q (value %#v)"
             [ArgStr "p: "; ArgStr "b"; ArgVal (VInt 2)]).
Proof. split; vm_compute; reflexivity. Qed.

Example shape_check_order :
  isErr (@Schema_Coerce refRuntime (FieldMap ∅ ∅)
           (VMapI {[ KNil := VInt 1; KInt 3 := VInt 1 ]}) ["p"]) = true
  ∧ @Schema_Coerce revRuntime (FieldMap ∅ ∅)
      (VMapI {[ KNil := VInt 1; KInt 3 := VInt 1 ]}) ["p"]
    = Panic "reflect: call of reflect.Value.Type on zero Value".
Proof. split; vm_compute; reflexivity. Qed.

(** C5, where the code departs from it: in strict mode a
    [map[interface{}]interface{}] whose only key is the string ["a"], which
    has a checker, is rejected as holding the unknown key
    ["<interface {} Value>"]: the strict check looks up [k.String()], and
    for a key of interface type that is not the key. *)
Theorem C5_strict_interface_keyed_map `{GoRuntime} path :
  Schema_Coerce (StrictFieldMap {[ "a" := Any ]} ∅)
    (VMapI {[ KStr "a" := VInt 1 ]}) path
  = Err (Errorf "%sunknown key %q (value %#v)"
           [ArgStr (pathAsPrefix path); ArgStr "<interface {} Value>";
            ArgVal (VInt 1)]).
Proof.
  unfold Schema_Coerce, coerceFields.
  rewrite (proj2 (hasStrictStringKeys_Ok_true
                    (VMapI {[ KStr "a" := VInt 1 ]}) eq_refl)) by done.
  cbn [isMap negb mbind Result_bind StrictFieldMap Strict MapKeys].
  rewrite rangeMap_singleton. by vm_compute.
Qed.

(** C6, where the code departs from it: a [map[interface{}]interface{}]
    whose only key is nil makes [hasStrictStringKeys] panic, for every
    schema: no error is returned. *)
Theorem C6_nil_key_panics `{GoRuntime} s x path :
  Schema_Coerce s (VMapI {[ KNil := x ]}) path
  = Panic "reflect: call of reflect.Value.Type on zero Value".
Proof.
  unfold Schema_Coerce, coerceFields, hasStrictStringKeys.
  cbn [isMap negb mbind Result_bind Type_Key MapKeys]. simpl.
  by rewrite rangeMap_singleton.
Qed.

(** ** The map-set dispatcher *)

Section mapSetC_facts.
Context `{GoRuntime} (c : mapSetC) (v : value) (path : list string).

Lemma selectLoop_skip selectorValue before rest :
  Forall (λ fmap, ∃ checker e,
            Checkers fmap !! selector c = Some checker
            ∧ checker selectorValue path = Err e) before →
  selectLoop c v path selectorValue (before ++ rest)
  = selectLoop c v path selectorValue rest.
Proof.
  induction 1 as [|fmap before (checker & e & Hc & He) _ IH]; [done|].
  simpl. by rewrite Hc, He.
Qed.

(** On a map that a string can index: the first variant whose checker
    for the selector accepts the selector's value coerces the whole
    input; without one, and without the selector, the error names the
    selector. *)
Lemma mapSetC_Coerce_spec o :
  isMap v = true → MapIndex v (selector c) = Ok o →
  match o with
  | None =>
      mapSetC_Coerce c v path
      = Err (error_ "supported selector" VNil (path ++ ["."; selector c]))
  | Some selectorValue =>
      (∀ before fmap after (checker : value → list string → Result value) x,
         fmaps c = (before ++ fmap :: after)%list →
         Forall (λ fmap, ∃ checker e,
                   Checkers fmap !! selector c = Some checker
                   ∧ checker selectorValue path = Err e) before →
         Checkers fmap !! selector c = Some checker →
         checker selectorValue path = Ok x →
         mapSetC_Coerce c v path = Schema_Coerce fmap v path)
      ∧ (Forall (λ fmap, ∃ checker e,
                   Checkers fmap !! selector c = Some checker
                   ∧ checker selectorValue path = Err e) (fmaps c) →
         mapSetC_Coerce c v path
         = Err (error_ "supported selector" selectorValue
                  (path ++ ["."; selector c])))
  end.
Proof.
  intros Hmap Hindex. unfold mapSetC_Coerce. rewrite Hmap, Hindex.
  cbn [negb mbind Result_bind]. destruct o as [selectorValue|]; [|done].
  split.
  - intros before fmap after checker x -> Hbefore Hc Hx.
    rewrite selectLoop_skip by done. simpl. by rewrite Hc, Hx.
  - intros Hall. rewrite <- (app_nil_r (fmaps c)).
    by rewrite selectLoop_skip.
Qed.
End mapSetC_facts.

(** C10: on a map whose key type is neither string nor an interface type,
    [mapSetC.Coerce] returns no error: indexing the map with the selector
    panics, where [Schema.Coerce] returns the error expecting
    "map[string]". *)
Theorem C10_mapSetC_panics `{GoRuntime} c v path kt :
  isMap v = true → Type_Key v = Ok kt →
  kt ≠ stringType → kt ≠ interfaceType →
  mapSetC_Coerce c v path
  = Panic "reflect.Value.MapIndex: value of type string is not assignable to type int"
  ∧ isErr (mapSetC_Coerce c v path) = false
  ∧ ∀ s, Schema_Coerce s v path = Err (error_ "map[string]" v path).
Proof.
  intros Hmap Hkt Hstring Hinterface.
  destruct v; try done; simpl in Hkt; injection Hkt as <-; done.
Qed.

(** C10 at a dispatcher on ["kind"] and the map [{1: 2}] keyed by ints. *)
Lemma C10_mapSetC_panics_witness :
  @mapSetC_Coerce refRuntime (@driftingSet refRuntime)
    (VMapZ {[ 1%Z := VInt 2 ]}) []
  = Panic "reflect.Value.MapIndex: value of type string is not assignable to type int".
Proof.
  refine (proj1 (@C10_mapSetC_panics refRuntime (@driftingSet refRuntime)
                   (VMapZ {[ 1%Z := VInt 2 ]}) [] intType _ _ _ _)).
  all: first [reflexivity | discriminate].
Defined.

(** C3, where the code departs from it: the input [{1: 2}], a map keyed by
    ints, has no key ["kind"], and [mapSetC.Coerce] panics on it instead of
    returning the error expecting "supported selector". *)
Theorem C3_mapSetC_int_keyed_map `{GoRuntime} path :
  (c ← kindSet; mapSetC_Coerce c (VMapZ {[ 1%Z := VInt 2 ]}) path)
  = Panic "reflect.Value.MapIndex: value of type string is not assignable to type int".
Proof. done. Qed.

(** ** Errors of the alternatives of OneOf *)

Lemma strict_stage_Ok `{GoRuntime} s v path :
  strictOk s v →
  (if Strict s then strictLoop s v path (MapKeys v) else Ok ()) = Ok ().
Proof.
  unfold strictOk. intros Hok. destruct (Strict s); [|done].
  destruct (strictLoop_cases s v path (MapKeys v))
    as [[-> _]|(k & x & Hin & Hc & _)]; [|done|].
  - intros k. apply MapKeys_MapIndexKey.
  - specialize (Hok eq_refl k Hin). rewrite Hc in Hok. by destruct Hok.
Qed.

(** A default for a field without a checker: once the per-field loop has
    succeeded, [Coerce] returns the error of [fmt.Errorf] for such a
    field. *)
Lemma Schema_Coerce_unknown_default `{GoRuntime} s v path out name d :
  stringKeyed v = true → strictOk s v →
  fieldsLoop s v path (rangeMap (Checkers s)) ∅ = Ok out →
  Defaults s !! name = Some d → isOmit d = false →
  Checkers s !! name = None →
  ∃ name', Checkers s !! name' = None
           ∧ Schema_Coerce s v path
             = Err (Errorf "got default value for unknown field %q"
                      [ArgStr name']).
Proof.
  intros Hkeyed Hstrict Hfields Hd Homit Hc. unfold Schema_Coerce.
  rewrite (coerceFields_stringKeyed s v path Hkeyed).
  rewrite (strict_stage_Ok s v path Hstrict), Hfields.
  cbn [mbind Result_bind].
  destruct (defaultsLoop_unknownOnly_cases s (rangeMap (Defaults s)) out)
    as [[_ Hknown]|(name' & d' & _ & _ & _ & Hc' & ->)].
  - destruct (Hknown name d) as [checker Hc']; [by apply elem_of_rangeMap|done| |].
    + pose proof (proj1 (fieldsLoop_Checkers s v path Hkeyed out) Hfields) as Hout.
      by eapply fieldOutput_unknown.
    + congruence.
  - by exists name'.
Qed.

(** C8, as the code has it: [OneOf] discards every error an alternative
    returns and goes on with the alternatives after it; the error that
    [Schema.Coerce] returns for a default without a checker is such an
    error, so an alternative failing with it is passed over like one that
    rejects the input.  Only a panic of an alternative reaches the
    caller. *)
Theorem C8_OneOf_discards_every_error `{GoRuntime} :
  (∀ (o : value → list string → Result value) rest v path e,
     o v path = Err e → OneOf (o :: rest) v path = OneOf rest v path)
  ∧ (∀ s v path out name d rest,
       stringKeyed v = true → strictOk s v →
       fieldsLoop s v path (rangeMap (Checkers s)) ∅ = Ok out →
       Defaults s !! name = Some d → isOmit d = false →
       Checkers s !! name = None →
       (∃ name', Checkers s !! name' = None
                 ∧ Schema_Coerce s v path
                   = Err (Errorf "got default value for unknown field %q"
                            [ArgStr name']))
       ∧ OneOf (Schema_Coerce s :: rest) v path = OneOf rest v path)
  ∧ (∀ (o : value → list string → Result value) rest v path msg,
       o v path = Panic msg → OneOf (o :: rest) v path = Panic msg).
Proof.
  split_and!.
  - intros o rest v path e. apply oneOfC_Coerce_Err.
  - intros s v path out name d rest Hkeyed Hstrict Hfields Hd Homit Hc.
    destruct (Schema_Coerce_unknown_default s v path out name d)
      as (name' & Hc' & Herr); [done..|].
    split; [by exists name'|]. by eapply oneOfC_Coerce_Err.
  - intros o rest v path msg Ho. unfold OneOf. simpl. by rewrite Ho.
Qed.

(** The second part of C8 at the schema whose only default, ["x"], has no
    checker, followed by [Any]. *)
Lemma C8_OneOf_discards_every_error_witness :
  OneOf [@Schema_Coerce refRuntime unknownDefaultSchema; Any] (VMapS ∅) ["p"]
  = OneOf [Any] (VMapS ∅) ["p"].
Proof.
  refine (proj2 (proj1 (proj2 (@C8_OneOf_discards_every_error refRuntime))
                   unknownDefaultSchema (VMapS ∅) ["p"] ∅ "x" (VInt 1) [Any]
                   _ _ _ _ _ _)).
  - reflexivity.
  - intros Hstrict. discriminate Hstrict.
  - vm_compute. reflexivity.
  - vm_compute. reflexivity.
  - reflexivity.
  - vm_compute. reflexivity.
Defined.

(** C8 fails as stated: the alternative [FieldMap({}, {"x": 1})] returns
    the error for a default without a checker; [OneOf] over it and [Any]
    returns the input, and [OneOf] over it alone returns its own error
    without an expected description. *)
Lemma C8_OneOf_swallows_unknown_default :
  @Schema_Coerce refRuntime unknownDefaultSchema (VMapS ∅) ["p"]
  = Err (Errorf "got default value for unknown field %q" [ArgStr "x"])
  ∧ OneOf [@Schema_Coerce refRuntime unknownDefaultSchema; Any] (VMapS ∅) ["p"]
    = Ok (VMapS ∅)
  ∧ OneOf [@Schema_Coerce refRuntime unknownDefaultSchema] (VMapS ∅) ["p"]
    = Err (error_ EmptyString (VMapS ∅) ["p"]).
Proof. split_and!; vm_compute; reflexivity. Qed.

(** ** Coercing an output again *)

Lemma Schema_Coerce_idempotent `{GoRuntime} s :
  (∀ name (c : value → list string → Result value),
     Checkers s !! name = Some c → idempotent c) →
  idempotent (Schema_Coerce s).
Proof.
  intros Hidem v path w (out & -> & Hfields & Hdeps)%Schema_Coerce_Ok_iff path'.
  apply Schema_Coerce_Ok_iff. exists out. split_and!; [done| |done].
  apply coerceFields_Ok_iff in Hfields as (Hkeyed & Hstrict & Hout & Hknown).
  apply coerceFields_Ok_iff. split_and!; [done| | |done].
  - apply strictOk_VMapS. intros _ name [x Hx]. specialize (Hout name).
    destruct (Checkers s !! name) eqn:Hc; [by eexists|].
    apply fieldOutput_unknown in Hout; congruence.
  - intros name. specialize (Hout name). unfold fieldOutput in *. simpl.
    destruct (Checkers s !! name) as [checker|] eqn:Hc; [|done].
    destruct (fieldValue s (stringLookup v name) name) as [x|] eqn:Hfv.
    + destruct Hout as (newv & Hx & ->). simpl. exists newv. split; [|done].
      by eapply Hidem.
    + rewrite Hout. unfold fieldValue in Hfv |- *.
      destruct (stringLookup v name); [done|]. by rewrite Hfv.
Qed.

Lemma constC_Coerce_idempotent `{GoRuntime} x : idempotent (Const x).
Proof.
  intros v path w. unfold Const, constC_Coerce, DeepEqual.
  destruct (bool_decide (v = x)) eqn:Heq; [|done].
  apply bool_decide_eq_true in Heq as ->. intros [= <-] path'.
  by rewrite bool_decide_eq_true_2.
Qed.

Lemma emptyC_Coerce_idempotent valueLabel : idempotent (Empty valueLabel).
Proof.
  intros v path w. unfold Empty, emptyC_Coerce, DeepEqual.
  destruct (bool_decide (v = VNil)) eqn:Heq; [|done].
  apply bool_decide_eq_true in Heq as ->. by intros [= <-] path'.
Qed.

Lemma plainChecker_idempotent `{GoRuntime} c : plainChecker c → idempotent c.
Proof.
  induction 1 as [|x|valueLabel|checkers defaults _ IH|checkers defaults _ IH].
  - by intros v path w [= <-] path'.
  - apply constC_Coerce_idempotent.
  - apply emptyC_Coerce_idempotent.
  - by apply Schema_Coerce_idempotent.
  - by apply Schema_Coerce_idempotent.
Qed.

(** C7, as the code has it: coercion is idempotent for every checker tree
    built from [Any], [Const], [Empty], [FieldMap] and [StrictFieldMap]:
    when [Coerce(v, p)] succeeds with the output [w], coercing [w] again,
    at [p] or at any other path, succeeds with the output [w]. *)
Theorem C7_idempotent_without_alternation `{GoRuntime}
    (c : value → list string → Result value) v path w :
  plainChecker c →
  c v path = Ok w →
  c w path = Ok w ∧ ∀ path', c w path' = Ok w.
Proof.
  intros Hplain Hw. pose proof (plainChecker_idempotent c Hplain v path w Hw).
  by split.
Qed.

(** C7 at [FieldMap({"a": Any}, {"a": 5})] and the empty map. *)
Lemma C7_idempotent_without_alternation_witness :
  @Schema_Coerce refRuntime (FieldMap {[ "a" := Any ]} {[ "a" := VInt 5 ]})
    (VMapS {[ "a" := VInt 5 ]}) [] = Ok (VMapS {[ "a" := VInt 5 ]}).
Proof.
  refine (proj1 (@C7_idempotent_without_alternation refRuntime
    (@Schema_Coerce refRuntime (FieldMap {[ "a" := Any ]} {[ "a" := VInt 5 ]}))
    (VMapS ∅) [] (VMapS {[ "a" := VInt 5 ]}) _ _)).
  - apply @plain_FieldMap. intros name c [<- <-]%lookup_singleton_Some.
    apply @plain_Any.
  - vm_compute. reflexivity.
Defined.

(** C7 fails as stated.  [OneOf] over a strict map that defaults ["c"] and
    a lax map: the strict map rejects [{"a": 1, "b": 2}], the lax one
    returns [{"a": 1}], and on [{"a": 1}] the strict map is the first to
    succeed and returns [{"a": 1, "c": 5}].  In the same way the dispatcher
    [driftingSet] sends [{"kind": {}}] to its second variant, whose output
    it then sends to its first, which adds the field ["extra"]. *)
Lemma C7_alternation_not_idempotent :
  @coreChecker refRuntime
    (OneOf [@Schema_Coerce refRuntime strictAlternative;
            @Schema_Coerce refRuntime laxAlternative])
  ∧ OneOf [@Schema_Coerce refRuntime strictAlternative;
           @Schema_Coerce refRuntime laxAlternative]
      (VMapS {[ "a" := VInt 1; "b" := VInt 2 ]}) []
    = Ok (VMapS {[ "a" := VInt 1 ]})
  ∧ OneOf [@Schema_Coerce refRuntime strictAlternative;
           @Schema_Coerce refRuntime laxAlternative]
      (VMapS {[ "a" := VInt 1 ]}) []
    = Ok (VMapS {[ "a" := VInt 1; "c" := VInt 5 ]})
  ∧ VMapS {[ "a" := VInt 1; "c" := VInt 5 ]} ≠ VMapS {[ "a" := VInt 1 ]}
  ∧ @coreChecker refRuntime (@mapSetC_Coerce refRuntime (@driftingSet refRuntime))
  ∧ @mapSetC_Coerce refRuntime (@driftingSet refRuntime)
      (VMapS {[ "kind" := VMapS ∅ ]}) []
    = Ok (VMapS {[ "kind" := VMapS {[ "d" := VInt 5 ]} ]})
  ∧ @mapSetC_Coerce refRuntime (@driftingSet refRuntime)
      (VMapS {[ "kind" := VMapS {[ "d" := VInt 5 ]} ]}) []
    = Ok (VMapS {[ "kind" := VMapS {[ "d" := VInt 5 ]}; "extra" := VInt 1 ]}).
Proof.
  split_and!.
  - apply @core_OneOf. intros o [->|[->|[]%elem_of_nil]%elem_of_cons]%elem_of_cons.
    + apply @core_StrictFieldMap.
      intros name c [[<- <-]|[_ [<- <-]%lookup_singleton_Some]]%lookup_insert_Some;
        apply @core_Any.
    + apply @core_FieldMap. intros name c [<- <-]%lookup_singleton_Some.
      apply @core_Any.
  - vm_compute. reflexivity.
  - vm_compute. reflexivity.
  - vm_compute. discriminate.
  - apply (@core_FieldMapSet refRuntime "kind"
             [@constVariant refRuntime; @nestedVariant refRuntime]).
    + vm_compute. reflexivity.
    + intros fmap [->|[->|[]%elem_of_nil]%elem_of_cons]%elem_of_cons; reflexivity.
    + intros fmap name o [->|[->|[]%elem_of_nil]%elem_of_cons]%elem_of_cons.
      * unfold constVariant. cbn [Checkers FieldMap].
        intros [[<- <-]|[_ [<- <-]%lookup_singleton_Some]]%lookup_insert_Some.
        -- apply @core_Const.
        -- apply @core_Any.
      * unfold nestedVariant. cbn [Checkers FieldMap].
        intros [<- <-]%lookup_singleton_Some. apply @core_FieldMap.
        intros name' c [<- <-]%lookup_singleton_Some. apply @core_Any.
  - vm_compute. reflexivity.
  - vm_compute. reflexivity.
Qed.


(** * Further properties of the code *)

(** ** Rendering a path *)

Lemma append_EmptyString_r (s : string) : s ++ EmptyString = s.
Proof.
  induction s as [|a s IH]; [done|].
  change (String a (s ++ EmptyString) = String a s). by rewrite IH.
Qed.

Lemma append_assoc (s1 s2 s3 : string) : (s1 ++ s2) ++ s3 = s1 ++ (s2 ++ s3).
Proof.
  induction s1 as [|a s1 IH]; [done|].
  change (String a ((s1 ++ s2) ++ s3) = String a (s1 ++ (s2 ++ s3))).
  by rewrite IH.
Qed.

Lemma Join_cons e rest :
  Join (e :: rest) EmptyString = e ++ Join rest EmptyString.
Proof.
  destruct rest as [|e' rest]; simpl; [by rewrite append_EmptyString_r|done].
Qed.

Lemma Join_app l1 l2 :
  Join (l1 ++ l2) EmptyString = Join l1 EmptyString ++ Join l2 EmptyString.
Proof.
  induction l1 as [|e l1 IH]; [done|].
  rewrite <- app_comm_cons, !Join_cons, IH. by rewrite append_assoc.
Qed.

(** The path that [Schema.Coerce] hands to the checker of a field is
    rendered as the rendering of its own path, a dot and the name of the
    field; at the top level, where the path is empty, the dot is dropped
    and the rendering is the name alone. *)
Theorem X1_pathAsString_field path name :
  pathAsString (setLast (vpath path) name)
  = match path with
    | [] => name
    | _ :: _ => pathAsString path ++ "." ++ name
    end.
Proof.
  rewrite setLast_vpath. destruct path as [|p0 rest].
  - simpl. done.
  - unfold pathAsString. rewrite <- app_comm_cons.
    assert (Join ["."; name] EmptyString = "." ++ name) as Hjoin by done.
    destruct (decide (p0 = ".")).
    + by rewrite Join_app, Hjoin.
    + by rewrite app_comm_cons, Join_app, Hjoin.
Qed.

(** Only a leading ["."] is dropped: a path that does not start with one
    is rendered as the concatenation of its segments, and appending
    segments to a path that is not empty appends them to its rendering. *)
Theorem X2_pathAsString_app path more :
  path ≠ [] →
  pathAsString (path ++ more) = pathAsString path ++ Join more EmptyString.
Proof.
  destruct path as [|p0 rest]; [done|]. intros _.
  unfold pathAsString. rewrite <- app_comm_cons.
  destruct (decide (p0 = ".")).
  - apply Join_app.
  - rewrite app_comm_cons. apply Join_app.
Qed.

Lemma X2_pathAsString_app_witness :
  pathAsString (["."; "a"] ++ ["."; "b"]) = pathAsString ["."; "a"] ++ Join ["."; "b"] EmptyString.
Proof. apply X2_pathAsString_app. discriminate. Defined.

(** ** OneOf, Empty *)

Lemma oneOfC_Coerce_app xs ys v path :
  oneOfC_Coerce (xs ++ ys) v path
  = match oneOfC_Coerce xs v path with
    | Ok newv => Ok newv
    | Err _ => oneOfC_Coerce ys v path
    | Panic msg => Panic msg
    end.
Proof.
  induction xs as [|o xs IH]; [done|]. simpl. by destruct (o v path).
Qed.

(** Nesting alternations changes nothing: [OneOf] over two groups of
    alternatives, each wrapped in its own [OneOf], returns on every input
    what [OneOf] over the concatenated list returns. *)
Theorem X3_OneOf_flatten (xs ys : list (value → list string → Result value))
    v path :
  OneOf [OneOf xs; OneOf ys] v path = OneOf (xs ++ ys) v path.
Proof.
  unfold OneOf. rewrite oneOfC_Coerce_app. simpl.
  destruct (oneOfC_Coerce xs v path); [done| |done].
  assert (∀ l, oneOfC_Coerce l v path = Err (error_ EmptyString v path)
               ∨ isErr (oneOfC_Coerce l v path) = false) as Hgeneric.
  { induction l as [|o l IH]; [by left|]. simpl. destruct (o v path); auto. }
  destruct (Hgeneric ys) as [->|Hys]; [done|].
  by destruct (oneOfC_Coerce ys v path).
Qed.

(** [OneOf] never hands on the error of an alternative: it returns an
    error exactly when every alternative returned one, and that error is
    always the one without an expected description, at [OneOf]'s own value
    and path. *)
Theorem X4_OneOf_error (options : list (value → list string → Result value))
    v path e :
  OneOf options v path = Err e ↔
  e = error_ EmptyString v path
  ∧ Forall (λ o : value → list string → Result value, ∃ e', o v path = Err e')
      options.
Proof.
  unfold OneOf. induction options as [|o options IH]; simpl.
  - split; [by intros [= <-]|by intros [-> _]].
  - destruct (o v path) as [newv|e'|msg] eqn:Ho.
    + split; [done|]. intros [_ Hall]. apply Forall_cons in Hall as [[? ?] _].
      congruence.
    + rewrite IH. split; intros [-> Hall]; split; try done.
      * apply Forall_cons. split; [by eexists|done].
      * by apply Forall_cons in Hall as [_ ?].
    + split; [done|]. intros [_ Hall]. apply Forall_cons in Hall as [[? ?] _].
      congruence.
Qed.

(** [Empty] accepts nil and nothing else, returning it; its error says
    "empty" and the label, and the empty label stands for "value":
    [Empty("")] is [Empty("value")]. *)
Theorem X5_Empty valueLabel v path :
  (∀ w, Empty valueLabel v path = Ok w ↔ v = VNil ∧ w = VNil)
  ∧ Empty EmptyString v path = Empty "value" v path
  ∧ (v ≠ VNil →
     Empty EmptyString v path = Err (error_ "empty value" v path)
     ∧ (valueLabel ≠ EmptyString →
        Empty valueLabel v path
        = Err (error_ ("empty " ++ valueLabel) v path))).
Proof.
  unfold Empty, emptyC_Coerce, DeepEqual. split_and!.
  - intros w. destruct (bool_decide (v = VNil)) eqn:Heq.
    + apply bool_decide_eq_true in Heq as ->. split; [by intros [= <-]|].
      by intros [_ ->].
    + apply bool_decide_eq_false in Heq. split; [done|]. by intros [? _].
  - done.
  - intros Hv. rewrite !bool_decide_eq_false_2 by done. split; [done|].
    intros Hlabel. by destruct (decide (valueLabel = EmptyString)).
Qed.

Lemma X5_Empty_witness :
  Empty EmptyString (VInt 0) ["p"] = Err (error_ "empty value" (VInt 0) ["p"]).
Proof.
  refine (proj1 (proj2 (proj2 (X5_Empty "x" (VInt 0) ["p"])) _)). discriminate.
Defined.

(** ** The constructor and the loop of the map-set dispatcher *)

Lemma FieldMapSet_missing selector maps :
  forallb (λ fmap, bool_decide (is_Some (Checkers fmap !! selector))) maps = false →
  ∃ fmap, fmap ∈ maps ∧ Checkers fmap !! selector = None.
Proof.
  induction maps as [|fmap maps IH]; [done|]. simpl.
  destruct (Checkers fmap !! selector) as [checker|] eqn:Hc.
  - rewrite bool_decide_eq_true_2 by by eexists. simpl.
    intros (fmap' & Hin & Hc')%IH. exists fmap'.
    split; [by apply list_elem_of_further|done].
  - intros _. exists fmap. split; [apply list_elem_of_here|done].
Qed.

Lemma FieldMapSet_Ok_iff sel maps c :
  FieldMapSet sel maps = Ok c ↔
  c = {| selector := sel; fmaps := maps |}
  ∧ ∀ fmap, fmap ∈ maps → is_Some (Checkers fmap !! sel).
Proof.
  unfold FieldMapSet. destruct (forallb _ maps) eqn:Hall.
  - rewrite forallb_forall in Hall. split.
    + intros [= <-]. split; [done|]. intros fmap Hin%list_elem_of_In.
      by apply Hall, bool_decide_eq_true_1 in Hin.
    + by intros [-> _].
  - apply FieldMapSet_missing in Hall as (fmap & Hin & Hc).
    split; [done|]. intros [_ Hsome].
    specialize (Hsome fmap Hin). rewrite Hc in Hsome. by destruct Hsome.
Qed.


Lemma MapIndex_Some_stringLookup v name x :
  MapIndex v name = Ok (Some x) → isMap v = true ∧ stringLookup v name = Some x.
Proof. destruct v; simpl; try done; by intros [= ->]. Qed.

Lemma selectLoop_Ok `{GoRuntime} c v path selectorValue l w :
  selectLoop c v path selectorValue l = Ok w →
  ∃ fmap (checker : value → list string → Result value) x,
    fmap ∈ l ∧ Checkers fmap !! selector c = Some checker
    ∧ checker selectorValue path = Ok x
    ∧ Schema_Coerce fmap v path = Ok w.
Proof.
  induction l as [|fmap l IH]; [done|]. simpl.
  destruct (Checkers fmap !! selector c) as [checker|] eqn:Hc; [|done].
  destruct (checker selectorValue path) as [x| |] eqn:Hx; [| |done].
  - intros Hw. exists fmap, checker, x.
    split_and!; [apply list_elem_of_here|done..].
  - intros (fmap' & checker' & x & Hin & ?)%IH. exists fmap', checker', x.
    split; [by apply list_elem_of_further|done].
Qed.

Lemma selectLoop_cases `{GoRuntime} c v path selectorValue l :
  (∀ fmap, fmap ∈ l → is_Some (Checkers fmap !! selector c)) →
  selectLoop c v path selectorValue l
  = Err (error_ "supported selector" selectorValue (path ++ ["."; selector c]))
  ∨ ∃ fmap (checker : value → list string → Result value),
      fmap ∈ l ∧ Checkers fmap !! selector c = Some checker
      ∧ ((∃ x, checker selectorValue path = Ok x
               ∧ selectLoop c v path selectorValue l = Schema_Coerce fmap v path)
         ∨ (∃ msg, checker selectorValue path = Panic msg
                   ∧ selectLoop c v path selectorValue l = Panic msg)).
Proof.
  induction l as [|fmap l IH]; intros Hsel; [by left|]. simpl.
  destruct (Hsel fmap (list_elem_of_here _ _)) as [checker Hc]. rewrite Hc.
  destruct (checker selectorValue path) as [x|e|msg] eqn:Hx.
  - right. exists fmap, checker. split_and!; [apply list_elem_of_here|done|].
    left. by exists x.
  - destruct IH as [->|(fmap' & checker' & Hin & Hc' & Hcases)].
    + intros fmap' Hin. apply Hsel. by apply list_elem_of_further.
    + by left.
    + right. exists fmap', checker'.
      split_and!; [by apply list_elem_of_further|done..].
  - right. exists fmap, checker. split_and!; [apply list_elem_of_here|done|].
    right. by exists msg.
Qed.

(** A dispatcher that [FieldMapSet] returned never calls a missing checker:
    on a map holding the selector, [Coerce] returns the error naming the
    selector, or what [Schema.Coerce] of a variant returns whose checker
    accepted the selector's value, or the panic of such a checker. *)
Theorem X7_mapSetC_constructed `{GoRuntime} sel maps c v path selectorValue :
  FieldMapSet sel maps = Ok c →
  MapIndex v sel = Ok (Some selectorValue) →
  mapSetC_Coerce c v path
  = Err (error_ "supported selector" selectorValue (path ++ ["."; sel]))
  ∨ ∃ fmap (checker : value → list string → Result value),
      fmap ∈ maps ∧ Checkers fmap !! sel = Some checker
      ∧ ((∃ x, checker selectorValue path = Ok x
               ∧ mapSetC_Coerce c v path = Schema_Coerce fmap v path)
         ∨ (∃ msg, checker selectorValue path = Panic msg
                   ∧ mapSetC_Coerce c v path = Panic msg)).
Proof.
  intros [-> Hsel]%FieldMapSet_Ok_iff Hindex.
  destruct (MapIndex_Some_stringLookup _ _ _ Hindex) as [Hmap _].
  unfold mapSetC_Coerce. cbn [selector fmaps].
  rewrite Hmap, Hindex. cbn [negb mbind Result_bind].
  apply (selectLoop_cases {| selector := sel; fmaps := maps |}). exact Hsel.
Qed.

Lemma X7_mapSetC_constructed_witness :
  @mapSetC_Coerce refRuntime (@driftingSet refRuntime) (VMapS {[ "kind" := VInt 7 ]}) []
  = Err (error_ "supported selector" (VInt 7) ([] ++ ["."; "kind"]))
  ∨ ∃ fmap (checker : value → list string → Result value),
      fmap ∈ [@constVariant refRuntime; @nestedVariant refRuntime]
      ∧ Checkers fmap !! "kind" = Some checker
      ∧ ((∃ x, checker (VInt 7) [] = Ok x
               ∧ @mapSetC_Coerce refRuntime (@driftingSet refRuntime)
                   (VMapS {[ "kind" := VInt 7 ]}) []
                 = @Schema_Coerce refRuntime fmap (VMapS {[ "kind" := VInt 7 ]}) [])
         ∨ (∃ msg, checker (VInt 7) [] = Panic msg
                   ∧ @mapSetC_Coerce refRuntime (@driftingSet refRuntime)
                       (VMapS {[ "kind" := VInt 7 ]}) [] = Panic msg)).
Proof.
  apply (@X7_mapSetC_constructed refRuntime "kind"
           [@constVariant refRuntime; @nestedVariant refRuntime]).
  - vm_compute. reflexivity.
  - vm_compute. reflexivity.
Defined.

(** On a map that holds the selector, the variants are probed in their
    order with the selector's value at the dispatcher's own path, and the
    first whose checker for the selector accepts it coerces the whole
    input: the result is the result of its [Schema.Coerce]. *)
Theorem X8_mapSetC_first_match `{GoRuntime} c v path selectorValue
    before fmap after (checker : value → list string → Result value) x :
  MapIndex v (selector c) = Ok (Some selectorValue) →
  fmaps c = (before ++ fmap :: after)%list →
  Forall (λ fmap, ∃ (checker : value → list string → Result value) e,
            Checkers fmap !! selector c = Some checker
            ∧ checker selectorValue path = Err e) before →
  Checkers fmap !! selector c = Some checker →
  checker selectorValue path = Ok x →
  mapSetC_Coerce c v path = Schema_Coerce fmap v path.
Proof.
  intros Hindex Hfmaps Hbefore Hc Hx.
  destruct (MapIndex_Some_stringLookup _ _ _ Hindex) as [Hmap _].
  pose proof (mapSetC_Coerce_spec c v path _ Hmap Hindex) as [Hfirst _].
  by eapply Hfirst.
Qed.

Lemma X8_mapSetC_first_match_witness :
  @mapSetC_Coerce refRuntime (@driftingSet refRuntime)
    (VMapS {[ "kind" := VMapS ∅ ]}) ["p"]
  = @Schema_Coerce refRuntime (@nestedVariant refRuntime)
      (VMapS {[ "kind" := VMapS ∅ ]}) ["p"].
Proof.
  apply (@X8_mapSetC_first_match refRuntime (@driftingSet refRuntime)
           (VMapS {[ "kind" := VMapS ∅ ]}) ["p"] (VMapS ∅)
           [@constVariant refRuntime] (@nestedVariant refRuntime) []
           (@Schema_Coerce refRuntime nestedDefault)
           (VMapS {[ "d" := VInt 5 ]})).
  - vm_compute. reflexivity.
  - reflexivity.
  - repeat constructor. eexists _, _. split; vm_compute; reflexivity.
  - vm_compute. reflexivity.
  - vm_compute. reflexivity.
Defined.

(** Without the selector in the input, and when the checker for the
    selector of every variant returns an error, the dispatcher returns the
    error expecting "supported selector", with the selector's value (nil
    when there is none) and the path extended by a dot and the selector. *)
Theorem X9_mapSetC_no_match `{GoRuntime} c v path o :
  MapIndex v (selector c) = Ok o →
  match o with
  | None => True
  | Some selectorValue =>
      Forall (λ fmap, ∃ (checker : value → list string → Result value) e,
                Checkers fmap !! selector c = Some checker
                ∧ checker selectorValue path = Err e) (fmaps c)
  end →
  mapSetC_Coerce c v path
  = Err (error_ "supported selector" (default VNil o)
           (path ++ ["."; selector c])).
Proof.
  intros Hindex Hreject.
  assert (isMap v = true) as Hmap by (by destruct v).
  pose proof (mapSetC_Coerce_spec c v path o Hmap Hindex) as Hspec.
  destruct o as [selectorValue|]; [|done]. destruct Hspec as [_ Hnone].
  by apply Hnone.
Qed.

Lemma X9_mapSetC_no_match_witness :
  @mapSetC_Coerce refRuntime (@driftingSet refRuntime) (VMapS ∅) ["p"]
  = Err (error_ "supported selector" (default VNil None) (["p"] ++ ["."; "kind"])).
Proof.
  apply (@X9_mapSetC_no_match refRuntime (@driftingSet refRuntime) (VMapS ∅)
           ["p"] None).
  - vm_compute. reflexivity.
  - exact I.
Defined.

(** When the dispatcher succeeds, its output is a map with string keys
    that holds the selector: under it is what the selector's checker of a
    variant returns for the input's selector value at the path of that
    field (the probe at the dispatcher's own path only selects). *)
Theorem X10_mapSetC_output_selector `{GoRuntime} c v path w :
  mapSetC_Coerce c v path = Ok w →
  ∃ out selectorValue newv fmap (checker : value → list string → Result value),
    w = VMapS out
    ∧ stringLookup v (selector c) = Some selectorValue
    ∧ fmap ∈ fmaps c ∧ Checkers fmap !! selector c = Some checker
    ∧ checker selectorValue (path ++ ["."; selector c])%list = Ok newv
    ∧ out !! selector c = Some newv.
Proof.
  unfold mapSetC_Coerce. destruct (isMap v) eqn:Hmap; [|done]. cbn [negb].
  destruct (MapIndex v (selector c)) as [[selectorValue|]| |] eqn:Hindex;
    cbn [mbind Result_bind]; [|done..].
  intros (fmap & checker & x & Hin & Hc & _ & Hw)%selectLoop_Ok.
  apply MapIndex_Some_stringLookup in Hindex as [_ Hlookup].
  apply Schema_Coerce_Ok_iff in Hw as (out & -> & Hfields & _).
  apply coerceFields_Ok_iff in Hfields as (_ & _ & Hout & _).
  specialize (Hout (selector c)). unfold fieldOutput in Hout.
  rewrite Hc, Hlookup in Hout. simpl in Hout.
  destruct Hout as (newv & Hnewv & HoutS).
  by exists out, selectorValue, newv, fmap, checker.
Qed.

Lemma X10_mapSetC_output_selector_witness :
  ∃ out selectorValue newv fmap (checker : value → list string → Result value),
    VMapS {[ "kind" := VMapS {[ "d" := VInt 5 ]} ]} = VMapS out
    ∧ stringLookup (VMapS {[ "kind" := VMapS ∅ ]}) "kind" = Some selectorValue
    ∧ fmap ∈ [@constVariant refRuntime; @nestedVariant refRuntime]
    ∧ Checkers fmap !! "kind" = Some checker
    ∧ checker selectorValue ([] ++ ["."; "kind"])%list = Ok newv
    ∧ out !! "kind" = Some newv.
Proof.
  apply (@X10_mapSetC_output_selector refRuntime (@driftingSet refRuntime)
           (VMapS {[ "kind" := VMapS ∅ ]}) []).
  vm_compute. reflexivity.
Defined.

(** ** Schema.Coerce: what the output holds *)

Lemma fieldsLoop_ext s v v' path l out :
  (∀ name (checker : value → list string → Result value),
     (name, checker) ∈ l → MapIndex v name = MapIndex v' name) →
  fieldsLoop s v path l out = fieldsLoop s v' path l out.
Proof.
  revert out. induction l as [|[name checker] l IH]; intros out Hext; [done|].
  simpl. rewrite <- (Hext name checker (list_elem_of_here _ _)).
  assert (∀ out, fieldsLoop s v path l out = fieldsLoop s v' path l out) as IH'.
  { intros out'. apply IH. intros name' checker' Hin.
    apply (Hext name' checker'). by apply list_elem_of_further. }
  destruct (MapIndex v name) as [valuev| |]; cbn [mbind Result_bind]; [|done..].
  destruct (fieldValue s valuev name) as [x|]; [|done].
  by destruct (checker x (setLast (vpath path) name)); cbn [mbind Result_bind].
Qed.

(** The output of a successful [Coerce] is a map with string keys
    (whatever the key type of the input was) that holds no key without a
    checker. *)
Theorem X11_Schema_output_keys `{GoRuntime} s v path w :
  Schema_Coerce s v path = Ok w →
  ∃ out, w = VMapS out
         ∧ ∀ name, is_Some (out !! name) → is_Some (Checkers s !! name).
Proof.
  intros (out & -> & Hfields & _)%Schema_Coerce_Ok_iff. exists out.
  split; [done|]. intros name [x Hx].
  apply coerceFields_Ok_iff in Hfields as (_ & _ & Hout & _).
  specialize (Hout name).
  destruct (Checkers s !! name) eqn:Hc; [by eexists|].
  apply fieldOutput_unknown in Hout; congruence.
Qed.

Lemma X11_Schema_output_keys_witness :
  ∃ out, VMapS {[ "a" := VInt 1 ]} = VMapS out
         ∧ ∀ name, is_Some (out !! name)
                   → is_Some (Checkers laxAlternative !! name).
Proof.
  apply (@X11_Schema_output_keys refRuntime laxAlternative
           (VMapS {[ "a" := VInt 1; "b" := VInt 2 ]}) []).
  vm_compute. reflexivity.
Defined.

(** Without [Strict], a key of the input that has no checker is ignored:
    the input with and without it give the same result, errors
    included. *)
Theorem X12_Schema_ignores_unknown_key `{GoRuntime} s m k x path :
  Strict s = false → Checkers s !! k = None →
  Schema_Coerce s (VMapS (<[k := x]> m)) path = Schema_Coerce s (VMapS m) path.
Proof.
  intros Hstrict Hk. unfold Schema_Coerce.
  rewrite !coerceFields_stringKeyed by done. rewrite Hstrict.
  cbn [mbind Result_bind].
  rewrite (fieldsLoop_ext s (VMapS (<[k := x]> m)) (VMapS m)); [done|].
  intros name checker Hin%elem_of_rangeMap. simpl.
  rewrite lookup_insert_ne; [done|]. intros ->. congruence.
Qed.

Lemma X12_Schema_ignores_unknown_key_witness :
  @Schema_Coerce refRuntime laxAlternative
    (VMapS (<[ "b" := VInt 2 ]> {[ "a" := VInt 1 ]})) []
  = @Schema_Coerce refRuntime laxAlternative (VMapS {[ "a" := VInt 1 ]}) [].
Proof.
  apply (@X12_Schema_ignores_unknown_key refRuntime); reflexivity.
Defined.

(** A field with a checker that the input lacks, and that has neither a
    default nor a dependency, is not left out: its checker is called on
    nil at the path of the field, the result is the field's entry in the
    output, and [Coerce] fails when the checker does not accept nil. *)
Theorem X13_Schema_absent_field_nil `{GoRuntime} s F
    (checker : value → list string → Result value) v path :
  Checkers s !! F = Some checker →
  stringLookup v F = None →
  Defaults s !! F = None → Dependencies s !! F = None →
  (∀ w, Schema_Coerce s v path = Ok w →
        ∃ out newv, w = VMapS out
                    ∧ checker VNil (path ++ ["."; F])%list = Ok newv
                    ∧ out !! F = Some newv)
  ∧ (isOk (checker VNil (path ++ ["."; F])%list) = false →
     isOk (Schema_Coerce s v path) = false).
Proof.
  intros HF Habsent Hd Hdep.
  assert (∀ w, Schema_Coerce s v path = Ok w →
            ∃ out newv, w = VMapS out
                        ∧ checker VNil (path ++ ["."; F])%list = Ok newv
                        ∧ out !! F = Some newv) as Hok.
  { intros w (out & -> & Hfields & _)%Schema_Coerce_Ok_iff.
    apply coerceFields_Ok_iff in Hfields as (_ & _ & Hout & _).
    specialize (Hout F). unfold fieldOutput, fieldValue in Hout.
    rewrite HF, Habsent, Hd, Hdep in Hout.
    destruct Hout as (newv & Hc & HoutF). by exists out, newv. }
  split; [done|]. intros Hfail.
  destruct (Schema_Coerce s v path) as [w| |] eqn:Hw; [|done..].
  destruct (Hok w eq_refl) as (_ & newv & _ & Hc & _). by rewrite Hc in Hfail.
Qed.

Lemma X13_Schema_absent_field_nil_witness :
  isOk (@Schema_Coerce refRuntime
          (FieldMap {[ "a" := @Const refRuntime (VInt 1) ]} ∅) (VMapS ∅) [])
  = false.
Proof.
  refine (proj2 (@X13_Schema_absent_field_nil refRuntime
                   (FieldMap {[ "a" := @Const refRuntime (VInt 1) ]} ∅) "a"
                   (@Const refRuntime (VInt 1)) (VMapS ∅) [] _ _ _ _) _).
  all: vm_compute; reflexivity.
Defined.

(** A field that the input holds is coerced from the input's value, not
    from its default: the output holds what its checker returns for that
    value at the path of the field, and [Coerce] fails when the checker
    does not accept it. *)
Theorem X14_Schema_present_field `{GoRuntime} s F
    (checker : value → list string → Result value) v x path :
  Checkers s !! F = Some checker →
  stringLookup v F = Some x →
  (∀ w, Schema_Coerce s v path = Ok w →
        ∃ out newv, w = VMapS out
                    ∧ checker x (path ++ ["."; F])%list = Ok newv
                    ∧ out !! F = Some newv)
  ∧ (isOk (checker x (path ++ ["."; F])%list) = false →
     isOk (Schema_Coerce s v path) = false).
Proof.
  intros HF Hx.
  assert (∀ w, Schema_Coerce s v path = Ok w →
            ∃ out newv, w = VMapS out
                        ∧ checker x (path ++ ["."; F])%list = Ok newv
                        ∧ out !! F = Some newv) as Hok.
  { intros w (out & -> & Hfields & _)%Schema_Coerce_Ok_iff.
    apply coerceFields_Ok_iff in Hfields as (_ & _ & Hout & _).
    specialize (Hout F). unfold fieldOutput in Hout.
    rewrite HF, Hx in Hout. simpl in Hout.
    destruct Hout as (newv & Hc & HoutF). by exists out, newv. }
  split; [done|]. intros Hfail.
  destruct (Schema_Coerce s v path) as [w| |] eqn:Hw; [|done..].
  destruct (Hok w eq_refl) as (_ & newv & _ & Hc & _). by rewrite Hc in Hfail.
Qed.

Lemma X14_Schema_present_field_witness :
  isOk (@Schema_Coerce refRuntime
          (FieldMap {[ "a" := @Const refRuntime (VInt 1) ]} {[ "a" := VInt 1 ]})
          (VMapS {[ "a" := VInt 2 ]}) [])
  = false.
Proof.
  refine (proj2 (@X14_Schema_present_field refRuntime
                   (FieldMap {[ "a" := @Const refRuntime (VInt 1) ]}
                      {[ "a" := VInt 1 ]}) "a"
                   (@Const refRuntime (VInt 1)) (VMapS {[ "a" := VInt 2 ]})
                   (VInt 2) [] _ _) _).
  all: vm_compute; reflexivity.
Defined.

(** ** Schema.Coerce: dependencies, order, failures *)

(** In the output of a successful [Coerce] a dependency holds as an "if
    and only if": the dependent field is there exactly when the field it
    depends on is there with the required value. *)
Theorem X15_Schema_dependency_iff `{GoRuntime} s v path out F dep :
  Schema_Coerce s v path = Ok (VMapS out) →
  Dependencies s !! F = Some dep →
  is_Some (out !! F) ↔ out !! DependsOn dep = Some (Value dep).
Proof.
  intros (out' & [= <-] & _ & Hdeps)%Schema_Coerce_Ok_iff Hdep.
  specialize (Hdeps F dep Hdep). unfold dependencyCheck, DeepEqual in Hdeps.
  destruct (out !! F) as [x|], (out !! DependsOn dep) as [actual|];
    simpl in Hdeps.
  - destruct (bool_decide (actual = Value dep)) eqn:Heq; [|done].
    apply bool_decide_eq_true in Heq as ->. split; eauto.
  - done.
  - destruct (bool_decide (actual = Value dep)) eqn:Heq; [done|].
    apply bool_decide_eq_false in Heq. split; [by intros [? ?]|].
    by intros [= ?].
  - split; [by intros [? ?]|done].
Qed.

Lemma X15_Schema_dependency_iff_witness :
  is_Some (({[ "a" := VBool true; "b" := VInt 1 ]} : gmap string value) !! "b")
  ↔ ({[ "a" := VBool true; "b" := VInt 1 ]} : gmap string value)
      !! DependsOn {| DependsOn := "a"; Value := VBool true |}
    = Some (Value {| DependsOn := "a"; Value := VBool true |}).
Proof.
  apply (@X15_Schema_dependency_iff refRuntime dependencySchema
           (VMapS {[ "a" := VBool true; "b" := VInt 1 ]}) []).
  - vm_compute. reflexivity.
  - vm_compute. reflexivity.
Defined.

Lemma elem_of_MapKeys_runtime (H1 H2 : GoRuntime) v k :
  k ∈ @MapKeys H1 v ↔ k ∈ @MapKeys H2 v.
Proof.
  destruct v; simpl; try done; unfold rangeMap;
    by rewrite !(@range_order_perm H1), !(@range_order_perm H2).
Qed.

(** Whether [Coerce] succeeds, and with which output, does not depend on
    the order in which the maps are ranged over: two runs that differ in
    it only may return different errors, never different outputs. *)
Theorem X16_Schema_success_order_independent (H1 H2 : GoRuntime) s v path w :
  @Schema_Coerce H1 s v path = Ok w ↔ @Schema_Coerce H2 s v path = Ok w.
Proof.
  rewrite !Schema_Coerce_Ok_iff. apply exist_proper. intros out.
  rewrite !coerceFields_Ok_iff. unfold strictOk.
  assert ((Strict s = true →
           ∀ k, k ∈ @MapKeys H1 v → is_Some (Checkers s !! String_ k))
          ↔ (Strict s = true →
             ∀ k, k ∈ @MapKeys H2 v → is_Some (Checkers s !! String_ k)))
    as Hstrict.
  { split; intros Hok Hs k Hk; apply (Hok Hs);
      by apply (elem_of_MapKeys_runtime H1 H2). }
  tauto.
Qed.

Lemma fieldsLoop_failure s v path l out r :
  stringKeyed v = true →
  fieldsLoop s v path l out = r → isOk r = false →
  ∃ name (checker : value → list string → Result value) x,
    (name, checker) ∈ l
    ∧ fieldValue s (stringLookup v name) name = Some x
    ∧ isOk (checker x (path ++ ["."; name])%list) = false
    ∧ (∀ e, r = Err e → checker x (path ++ ["."; name])%list = Err e)
    ∧ (∀ msg, r = Panic msg → checker x (path ++ ["."; name])%list = Panic msg).
Proof.
  intros Hkeyed. revert out.
  induction l as [|[name checker] l IH]; intros out Hr Hfail.
  { simpl in Hr. by subst r. }
  simpl in Hr. rewrite (MapIndex_stringKeyed _ _ Hkeyed) in Hr.
  cbn [mbind Result_bind] in Hr. rewrite setLast_vpath in Hr.
  destruct (fieldValue s (stringLookup v name) name) as [x|] eqn:Hfv.
  - destruct (checker x (path ++ ["."; name])%list) as [newv|e|msg] eqn:Hc;
      cbn [mbind Result_bind] in Hr.
    + destruct (IH _ Hr Hfail) as (name' & checker' & x' & Hin & Hrest).
      exists name', checker', x'. split; [by apply list_elem_of_further|done].
    + exists name, checker, x. rewrite Hc, <- Hr.
      split_and!; [apply list_elem_of_here|done..|by intros ? [= <-]|done].
    + exists name, checker, x. rewrite Hc, <- Hr.
      split_and!; [apply list_elem_of_here|done..|by intros ? [= <-]].
  - destruct (IH _ Hr Hfail) as (name' & checker' & x' & Hin & Hrest).
    exists name', checker', x'. split; [by apply list_elem_of_further|done].
Qed.


Lemma allStringKeys_not_Err keys e :
  allStringKeys (InterfaceValue <$> keys) ≠ Err e.
Proof. induction keys as [|k keys IH]; [done|]. by destruct k. Qed.

Lemma hasStrictStringKeys_not_Err `{GoRuntime} v e :
  hasStrictStringKeys v ≠ Err e.
Proof.
  destruct v; try done. unfold hasStrictStringKeys. simpl.
  apply allStringKeys_not_Err.
Qed.


Lemma strict_stage_cases `{GoRuntime} s v path :
  (if Strict s then strictLoop s v path (MapKeys v) else Ok ()) = Ok ()
  ∨ (Strict s = true
     ∧ ∃ k x, k ∈ MapKeys v ∧ Checkers s !! String_ k = None
              ∧ MapIndexKey v k = Ok x
              ∧ (if Strict s then strictLoop s v path (MapKeys v) else Ok ())
                = Err (Errorf "%sunknown key %q (value %#v)"
                         [ArgStr (pathAsPrefix path); ArgStr (String_ k);
                          ArgVal x])).
Proof.
  destruct (Strict s); [|by left].
  destruct (strictLoop_cases s v path (MapKeys v))
    as [[-> _]|(k & x & Hin & Hc & Hx & ->)].
  - intros k. apply MapKeys_MapIndexKey.
  - by left.
  - right. split; [done|]. by exists k, x.
Qed.

(** Every error that [Coerce] returns is one of six: the input is no map;
    it is a map whose keys are not all strings; in strict mode, a key of
    the input has no checker; the checker of a field returned the error,
    which is handed on unchanged; a default other than Omit names a field
    without a checker; or a dependency is violated in the output of the
    fields. *)
Theorem X17_Schema_errors `{GoRuntime} s v path e :
  Schema_Coerce s v path = Err e →
  (isMap v = false ∧ e = error_ "map" v path)
  ∨ (isMap v = true ∧ stringKeyed v = false ∧ e = error_ "map[string]" v path)
  ∨ (Strict s = true
     ∧ ∃ k x, k ∈ MapKeys v ∧ Checkers s !! String_ k = None
              ∧ MapIndexKey v k = Ok x
              ∧ e = Errorf "%sunknown key %q (value %#v)"
                      [ArgStr (pathAsPrefix path); ArgStr (String_ k); ArgVal x])
  ∨ (∃ name (checker : value → list string → Result value) x,
       Checkers s !! name = Some checker
       ∧ fieldValue s (stringLookup v name) name = Some x
       ∧ checker x (path ++ ["."; name])%list = Err e)
  ∨ (∃ name d, Defaults s !! name = Some d ∧ isOmit d = false
               ∧ Checkers s !! name = None
               ∧ e = Errorf "got default value for unknown field %q"
                       [ArgStr name])
  ∨ (∃ name dep out, Dependencies s !! name = Some dep
                     ∧ coerceFields s v path = Ok out
                     ∧ dependencyCheck out name dep = Some e).
Proof.
  unfold Schema_Coerce.
  destruct (coerceFields s v path) as [out|e0|msg] eqn:Hcf;
    cbn [mbind Result_bind]; [| |done].
  { destruct (dependenciesLoop_cases (rangeMap (Dependencies s)) out)
      as [[-> _]|(name & dep & e' & Hin%elem_of_rangeMap & Hcheck & ->)];
      cbn [mbind Result_bind]; [done|].
    intros [= <-]. do 5 right. by exists name, dep, out. }
  intros [= <-]. destruct (stringKeyed v) eqn:Hkeyed.
  - rewrite (coerceFields_stringKeyed s v path Hkeyed) in Hcf.
    destruct (strict_stage_cases s v path)
      as [Hstage|(Hstrict & k & x & Hin & Hc & Hx & Hstage)];
      rewrite Hstage in Hcf; cbn [mbind Result_bind] in Hcf.
    2: { injection Hcf as <-. do 2 right. left. split; [done|]. by exists k, x. }
    destruct (fieldsLoop s v path (rangeMap (Checkers s)) ∅) as [out|e'|msg]
      eqn:Hfields; cbn [mbind Result_bind] in Hcf; [| |done].
    + destruct (defaultsLoop_unknownOnly_cases s (rangeMap (Defaults s)) out)
        as [[Hloop _]|(name & d & Hin%elem_of_rangeMap & Homit & _ & Hc & Hloop)];
        rewrite Hloop in Hcf; [done|].
      injection Hcf as <-. do 4 right. left. by exists name, d.
    + injection Hcf as ->.
      destruct (fieldsLoop_failure s v path _ _ _ Hkeyed Hfields eq_refl)
        as (name & checker & x & Hin%elem_of_rangeMap & Hfv & _ & Herr & _).
      do 3 right. left. exists name, checker, x. split_and!; [done..|].
      by apply Herr.
  - unfold coerceFields in Hcf. destruct (isMap v) eqn:Hmap; cbn [negb] in Hcf.
    2: { injection Hcf as <-. by left. }
    destruct (hasStrictStringKeys v) as [[]|e'|msg] eqn:Hstrings;
      cbn [mbind Result_bind negb] in Hcf.
    + apply hasStrictStringKeys_Ok_true in Hstrings; congruence.
    + injection Hcf as <-. right. by left.
    + by apply hasStrictStringKeys_not_Err in Hstrings.
    + done.
Qed.


Lemma X17_Schema_errors_witness :
  (isMap (VMapS ∅) = false
   ∧ Errorf "got default value for unknown field %q" [ArgStr "x"]
     = error_ "map" (VMapS ∅) [])
  ∨ (isMap (VMapS ∅) = true ∧ stringKeyed (VMapS ∅) = false
     ∧ Errorf "got default value for unknown field %q" [ArgStr "x"]
       = error_ "map[string]" (VMapS ∅) [])
  ∨ (Strict unknownDefaultSchema = true
     ∧ ∃ k x, k ∈ @MapKeys refRuntime (VMapS ∅)
              ∧ Checkers unknownDefaultSchema !! String_ k = None
              ∧ MapIndexKey (VMapS ∅) k = Ok x
              ∧ Errorf "got default value for unknown field %q" [ArgStr "x"]
                = Errorf "%sunknown key %q (value %#v)"
                    [ArgStr (@pathAsPrefix refRuntime []); ArgStr (String_ k);
                     ArgVal x])
  ∨ (∃ name (checker : value → list string → Result value) x,
       Checkers unknownDefaultSchema !! name = Some checker
       ∧ fieldValue unknownDefaultSchema (stringLookup (VMapS ∅) name) name
         = Some x
       ∧ checker x ([] ++ ["."; name])%list
         = Err (Errorf "got default value for unknown field %q" [ArgStr "x"]))
  ∨ (∃ name d, Defaults unknownDefaultSchema !! name = Some d
               ∧ isOmit d = false
               ∧ Checkers unknownDefaultSchema !! name = None
               ∧ Errorf "got default value for unknown field %q" [ArgStr "x"]
                 = Errorf "got default value for unknown field %q"
                     [ArgStr name])
  ∨ (∃ name dep out, Dependencies unknownDefaultSchema !! name = Some dep
                     ∧ @coerceFields refRuntime unknownDefaultSchema (VMapS ∅) []
                       = Ok out
                     ∧ dependencyCheck out name dep
                       = Some (Errorf "got default value for unknown field %q"
                                 [ArgStr "x"])).
Proof.
  apply (@X17_Schema_errors refRuntime unknownDefaultSchema (VMapS ∅) []).
  vm_compute. reflexivity.
Defined.


(** ** Schema.Coerce: the key type of the input *)

#[global] Instance KStr_inj : Inj (=) (=) KStr.
Proof. by intros ?? [= ->]. Qed.

Lemma stringKeyed_kmap_KStr (m : gmap string value) :
  stringKeyed (VMapI (kmap KStr m)) = true.
Proof.
  simpl. apply forallb_forall. intros k Hin%list_elem_of_In.
  apply list_elem_of_fmap in Hin as ([k' x] & -> & Hin).
  apply elem_of_map_to_list in Hin.
  apply (lookup_kmap_Some KStr) in Hin as (name & Hk & _). simpl in Hk.
  by subst k'.
Qed.

(** Without [Strict], a [map[interface{}]interface{}] whose keys are all
    strings is coerced exactly as the [map[string]interface{}] with the
    same entries. *)
Theorem X19_Schema_interface_keyed `{GoRuntime} s (m : gmap string value) path :
  Strict s = false →
  Schema_Coerce s (VMapI (kmap KStr m)) path = Schema_Coerce s (VMapS m) path.
Proof.
  intros Hstrict. unfold Schema_Coerce.
  rewrite (coerceFields_stringKeyed s _ path (stringKeyed_kmap_KStr m)).
  rewrite (coerceFields_stringKeyed s (VMapS m) path eq_refl).
  rewrite Hstrict. cbn [mbind Result_bind].
  rewrite (fieldsLoop_ext s (VMapI (kmap KStr m)) (VMapS m)); [done|].
  intros name checker _. simpl. by rewrite (lookup_kmap KStr).
Qed.

Lemma X19_Schema_interface_keyed_witness :
  @Schema_Coerce refRuntime laxAlternative
    (VMapI (kmap KStr ({[ "a" := VInt 1 ]} : gmap string value))) []
  = @Schema_Coerce refRuntime laxAlternative (VMapS {[ "a" := VInt 1 ]}) [].
Proof. apply (@X19_Schema_interface_keyed refRuntime). reflexivity. Defined.

Lemma forallb_Permutation {A} (f : A → bool) l1 l2 :
  l1 ≡ₚ l2 → forallb f l1 = forallb f l2.
Proof.
  induction 1 as [|x l1 l2 _ IH|x y l|l1 l2 l3 _ IH1 _ IH2]; simpl.
  - done.
  - by rewrite IH.
  - by destruct (f x), (f y).
  - by rewrite IH1.
Qed.

(** On a map keyed by an interface type that does not hold the nil key,
    [hasStrictStringKeys] returns whether all keys are strings, in
    whatever order it meets them; when one is not, [Coerce] returns the
    error expecting "map[string]". *)
Theorem X20_shape_check_without_nil `{GoRuntime} (m : gmap key value) :
  m !! KNil = None →
  hasStrictStringKeys (VMapI m) = Ok (stringKeyed (VMapI m))
  ∧ (stringKeyed (VMapI m) = false →
     ∀ s path,
       Schema_Coerce s (VMapI m) path
       = Err (error_ "map[string]" (VMapI m) path)).
Proof.
  intros Hnil.
  assert (hasStrictStringKeys (VMapI m) = Ok (stringKeyed (VMapI m))) as Hshape.
  { unfold hasStrictStringKeys. simpl. rewrite allStringKeys_no_nil.
    - f_equal. apply forallb_Permutation. unfold rangeMap.
      by rewrite range_order_perm.
    - rewrite elem_of_fst_rangeMap, Hnil. by intros [? ?]. }
  split; [done|]. intros Hkeyed s path.
  unfold Schema_Coerce, coerceFields. rewrite Hshape, Hkeyed. done.
Qed.

Lemma X20_shape_check_without_nil_witness :
  @hasStrictStringKeys refRuntime (VMapI {[ KInt 3 := VInt 1 ]})
  = Ok (stringKeyed (VMapI {[ KInt 3 := VInt 1 ]})).
Proof.
  refine (proj1 (@X20_shape_check_without_nil refRuntime
                   {[ KInt 3 := VInt 1 ]} _)).
  vm_compute. reflexivity.
Defined.

(** In strict mode, on a [map[string]interface{}]: [Coerce] returns the
    unknown-key error exactly when a key of the input has no checker, the
    key it names is such a key and the value is its entry, and no checker
    of a field decides it. *)
Theorem X21_Schema_strict_string_map `{GoRuntime} s (m : gmap string value) path :
  Strict s = true →
  (∃ name x, m !! name = Some x ∧ Checkers s !! name = None)
  ↔ (∃ name x, m !! name = Some x ∧ Checkers s !! name = None
       ∧ Schema_Coerce s (VMapS m) path
         = Err (Errorf "%sunknown key %q (value %#v)"
                  [ArgStr (pathAsPrefix path); ArgStr name; ArgVal x])).
Proof.
  intros Hstrict. split.
  - intros (name & x & Hx & Hc).
    destruct (Schema_Coerce_strict_VMapS s m path Hstrict) as [[_ Hall]|Hbad];
      [|done].
    destruct (Hall name) as [checker Hc']; [by eexists|congruence].
  - intros (name & x & Hx & Hc & _). by exists name, x.
Qed.

Lemma X21_Schema_strict_string_map_witness :
  (∃ name x, ({[ "b" := VInt 1 ]} : gmap string value) !! name = Some x
             ∧ Checkers strictAlternative !! name = None)
  ↔ (∃ name x, ({[ "b" := VInt 1 ]} : gmap string value) !! name = Some x
       ∧ Checkers strictAlternative !! name = None
       ∧ @Schema_Coerce refRuntime strictAlternative (VMapS {[ "b" := VInt 1 ]}) ["p"]
         = Err (Errorf "%sunknown key %q (value %#v)"
                  [ArgStr (@pathAsPrefix refRuntime ["p"]); ArgStr name;
                   ArgVal x])).
Proof.
  apply (@X21_Schema_strict_string_map refRuntime). reflexivity.
Defined.

(** A schema, with or without dependencies, whose field checkers are
    idempotent is idempotent: coercing the output of a successful [Coerce]
    again, at any path, returns that output. *)
Theorem X22_Schema_idempotent `{GoRuntime} s v path w :
  (∀ name (c : value → list string → Result value),
     Checkers s !! name = Some c → idempotent c) →
  Schema_Coerce s v path = Ok w →
  ∀ path', Schema_Coerce s w path' = Ok w.
Proof.
  intros Hidem Hw. by apply (Schema_Coerce_idempotent s Hidem v path).
Qed.

Lemma X22_Schema_idempotent_witness :
  @Schema_Coerce refRuntime dependencySchema
    (VMapS {[ "a" := VBool true; "b" := VInt 1 ]}) ["q"]
  = Ok (VMapS {[ "a" := VBool true; "b" := VInt 1 ]}).
Proof.
  apply (@X22_Schema_idempotent refRuntime dependencySchema
           (VMapS {[ "a" := VBool true; "b" := VInt 1 ]}) []).
  - intros name c. unfold dependencySchema. cbn [Checkers].
    intros [[_ <-]|[_ [_ <-]%lookup_singleton_Some]]%lookup_insert_Some;
      by intros v path w [= <-] path'.
  - vm_compute. reflexivity.
Defined.

Lemma elem_of_MapKeys_VMapI `{GoRuntime} m k :
  k ∈ MapKeys (VMapI m) ↔ ∃ k', k = InterfaceValue k' ∧ is_Some (m !! k').
Proof.
  simpl. rewrite list_elem_of_fmap. by setoid_rewrite elem_of_fst_rangeMap.
Qed.

(** In strict mode a [map[interface{}]interface{}] that is not empty and
    whose keys are all strings is rejected whatever its keys are, unless
    the schema has a checker under the name ["<interface {} Value>"]: the
    error names that string as the unknown key, with the value of an entry
    of the input. *)
Theorem X23_Schema_strict_interface_keyed `{GoRuntime} s (m : gmap key value) path :
  Strict s = true → stringKeyed (VMapI m) = true → m ≠ ∅ →
  Checkers s !! "<interface {} Value>" = None →
  ∃ k x, m !! k = Some x
         ∧ Schema_Coerce s (VMapI m) path
           = Err (Errorf "%sunknown key %q (value %#v)"
                    [ArgStr (pathAsPrefix path); ArgStr "<interface {} Value>";
                     ArgVal x]).
Proof.
  intros Hstrict Hkeyed Hne Hc. unfold Schema_Coerce.
  rewrite (coerceFields_stringKeyed s _ path Hkeyed), Hstrict.
  destruct (strictLoop_cases s (VMapI m) path (MapKeys (VMapI m)))
    as [[_ Hall]|(k & x & Hin & _ & Hx & ->)].
  - intros k. apply MapKeys_MapIndexKey.
  - apply map_choose in Hne as (k & x & Hk).
    destruct (Hall (InterfaceValue k)) as [checker Hc'].
    + apply elem_of_MapKeys_VMapI. exists k. split; [done|by eexists].
    + simpl in Hc'. congruence.
  - apply elem_of_MapKeys_VMapI in Hin as (k' & -> & _). simpl in Hx.
    destruct (m !! k') as [x'|] eqn:Hk'; [|done]. injection Hx as ->.
    by exists k', x.
Qed.

Lemma X23_Schema_strict_interface_keyed_witness :
  ∃ k x, ({[ KStr "a" := VInt 1 ]} : gmap key value) !! k = Some x
         ∧ @Schema_Coerce refRuntime strictAlternative
             (VMapI {[ KStr "a" := VInt 1 ]}) ["p"]
           = Err (Errorf "%sunknown key %q (value %#v)"
                    [ArgStr (@pathAsPrefix refRuntime ["p"]);
                     ArgStr "<interface {} Value>"; ArgVal x]).
Proof.
  apply (@X23_Schema_strict_interface_keyed refRuntime strictAlternative
           {[ KStr "a" := VInt 1 ]} ["p"]).
  - reflexivity.
  - vm_compute. reflexivity.
  - intros Hempty. apply (f_equal (λ m : gmap key value, m !! KStr "a")) in Hempty.
    vm_compute in Hempty. discriminate Hempty.
  - vm_compute. reflexivity.
Defined.

Lemma allStringKeys_nil_Panic keys :
  KNil ∈ keys → Forall (λ k, k = KNil ∨ isKStr k = true) keys →
  allStringKeys (InterfaceValue <$> keys)
  = Panic "reflect: call of reflect.Value.Type on zero Value".
Proof.
  induction keys as [|k keys IH]; [by intros ?%elem_of_nil|].
  intros Hin [Hk Hkeys]%Forall_cons. destruct k; simpl.
  - done.
  - by destruct Hk.
  - by destruct Hk.
  - apply IH; [|done]. by apply elem_of_cons in Hin as [?|?].
Qed.

(** A [map[interface{}]interface{}] that holds the nil key beside string
    keys only makes [Coerce] panic, for every schema and in whatever order
    the keys are met. *)
Theorem X24_Schema_nil_key_panics `{GoRuntime} s (m : gmap key value) path :
  is_Some (m !! KNil) →
  (∀ k, is_Some (m !! k) → k = KNil ∨ isKStr k = true) →
  Schema_Coerce s (VMapI m) path
  = Panic "reflect: call of reflect.Value.Type on zero Value".
Proof.
  intros Hnil Hkeys. unfold Schema_Coerce, coerceFields, hasStrictStringKeys.
  simpl. rewrite allStringKeys_nil_Panic; [done| |].
  - by apply elem_of_fst_rangeMap.
  - apply Forall_forall. intros k Hk%elem_of_fst_rangeMap. by apply Hkeys.
Qed.

Lemma X24_Schema_nil_key_panics_witness :
  @Schema_Coerce refRuntime laxAlternative
    (VMapI {[ KNil := VInt 1; KStr "a" := VInt 2 ]}) []
  = Panic "reflect: call of reflect.Value.Type on zero Value".
Proof.
  apply (@X24_Schema_nil_key_panics refRuntime).
  - vm_compute. eauto.
  - intros k [x Hx].
    apply lookup_insert_Some in Hx as [[<- _]|[_ Hx]]; [by left|].
    apply lookup_singleton_Some in Hx as [<- _]. by right.
Defined.
